(** * The List ADT of [main.cpp]: construction, elimination, [foldr] and the
      combinators built on it.

    The C++ class [List<T>] is the tagged union of the Haskell declaration
    quoted in its header comment,

      data List a = Cons { head :: a, tail :: List a } | Nil

    Its constructor is private, so a value is built by [List<T>::cons] and
    [List<T>::nil] only, and it is inspected by [cases] only.  The first part
    of this file embeds the program at the level of values (an inductive
    type for the tagged union, functions for the templates).  The second
    part embeds it operationally: nodes live in a store and are reached
    through addresses, as with [std::shared_ptr], every call of [cases] and
    of the user's function is counted, and recursion is bounded by fuel. *)

From Stdlib Require Import ZArith List String Ascii Bool Arith Lia.
From Stdlib Require Import DecimalString.
From Stdlib Require DecimalPos DecimalZ.
Import ListNotations.

Set Implicit Arguments.

(* ------------------------------------------------------------------ *)
(** ** The data type *)

(** [enum Tag { Cons, Nil }]. *)
Inductive Tag : Type := TagCons | TagNil.

(** [class List<T>]: field [tag] selects the constructor; [head] and [tail]
    are meaningful for [Tag::Cons] only. *)
Inductive List (T : Type) : Type :=
| Cons (head : T) (tail : List T)
| Nil.

Arguments Nil {T}.

Definition tag {T} (l : List T) : Tag :=
  match l with
  | Cons _ _ => TagCons
  | Nil => TagNil
  end.

(** [List<T>::cases<R>(cons_case, nil_case)]: the [switch] on [tag]. *)
Definition cases {T R} (l : List T)
    (cons_case : T -> List T -> R) (nil_case : unit -> R) : R :=
  match l with
  | Cons head tail => cons_case head tail
  | Nil => nil_case tt
  end.

(** [List<T>::cons] and [List<T>::nil], and the free wrappers [cons] and
    [nil] that forward to them. *)
Definition List_cons {T} (head : T) (tail : List T) : List T := Cons head tail.
Definition List_nil {T} : List T := Nil.

Definition cons {T} (head : T) (tail : List T) : List T := List_cons head tail.
Definition nil {T} : List T := List_nil.

(** [operator&=(head, tail)].  In C++ the compound assignment operators
    group right to left. *)
Definition op_and_assign {T} (head : T) (tail : List T) : List T :=
  List_cons head tail.

Declare Scope adt_scope.
Delimit Scope adt_scope with adt.
Notation "x &= y" := (op_and_assign x y)
  (at level 60, right associativity) : adt_scope.
Open Scope adt_scope.

(* ------------------------------------------------------------------ *)
(** ** The fold and the combinators, on values *)

(** [foldr<R,T>(f, acc, list)]: both branches are the lambdas handed to
    [cases]; the recursive call sits in the first one. *)
Fixpoint foldr {R T} (f : T -> R -> R) (acc : R) (list : List T) {struct list} : R :=
  cases list
    (fun head tail => f head (foldr f acc tail))
    (fun _ => acc).

(** What [sum] asks of [T]: an operator [+] and the conversion [(T) 0]. *)
Class Additive (T : Type) : Type := {
  zero : T;
  plus : T -> T -> T
}.

(** [sum<T>(list)]. *)
Definition sum {T} `{Additive T} (list : List T) : T :=
  foldr (fun i s => plus i s) zero list.

(** [map<U,T>(f, ts)].  The parameter [ts] is declared [List<U>::ptr] and is
    handed to [foldr<List<U>::ptr,T>], whose third parameter is
    [List<T>::ptr]; the instantiations that compile are those with [U] and
    [T] the same type, as in [main]'s [map<int,int>].  The embedding is
    therefore over one element type. *)
Definition map {T} (f : T -> T) (ts : List T) : List T :=
  foldr (fun x us => f x &= us) nil ts.

(** Number of [Cons] nodes on the tail chain. *)
Fixpoint length {T} (l : List T) : nat :=
  match l with
  | Cons _ tail => S (length tail)
  | Nil => O
  end.

(** [filter<T>(f, list)].  The lambda handed to [foldr] receives the folded
    remainder in its second parameter (named [tail] in the source) and calls
    [filter<T>] on it again.  That call is not on a sub-term of [list], so
    the recursion is bounded by [fuel]; [None] means the bound was hit.
    [foldr] is used at result type [option (List T)], the [match] on the
    accumulator being the call-by-value evaluation of the argument. *)
Fixpoint filter_fuel {T} (fuel : nat) (f : T -> bool) (list : List T)
    : option (List T) :=
  match fuel with
  | O => None
  | S fuel' =>
      foldr
        (fun head (acc : option (List T)) =>
           match acc with
           | None => None
           | Some tail =>
               if f head
               then option_map (fun r => head &= r) (filter_fuel fuel' f tail)
               else filter_fuel fuel' f tail
           end)
        (Some nil)
        list
  end.

(** [filter] run with a bound that always suffices (see
    [filter_fuel_enough]). *)
Definition filter {T} (f : T -> bool) (list : List T) : List T :=
  match filter_fuel (S (length list)) f list with
  | Some r => r
  | None => nil
  end.

(** The definition of filter in the words of the specification: one
    [foldRight] whose combining function keeps or drops the head and
    leaves the accumulator alone. *)
Definition filter_spec {T} (pred : T -> bool) (list : List T) : List T :=
  foldr (fun x acc => if pred x then cons x acc else acc) nil list.

(* ------------------------------------------------------------------ *)
(** ** Printing *)

(** [std::ostream] as the text written so far; [operator<<] on an element
    type appends its rendering. *)
Definition ostream : Type := string.

Class Printable (T : Type) : Type := {
  show : T -> string
}.

Definition put_string (out : ostream) (s : string) : ostream := (out ++ s)%string.
Definition put {T} `{Printable T} (out : ostream) (x : T) : ostream :=
  put_string out (show x).

(** [operator<<(out, List<T>&)]:
    [out << head << " &= " << *tail] in the first branch, [out << "nil"] in
    the second. *)
Fixpoint put_list {T} `{Printable T} (out : ostream) (list : List T)
    {struct list} : ostream :=
  cases list
    (fun head tail => put_list (put_string (put out head) " &= ") tail)
    (fun _ => put_string out "nil").

(** What [std::cout << *l] adds to an empty stream. *)
Definition render {T} `{Printable T} (l : List T) : string :=
  put_list EmptyString l.

(* ------------------------------------------------------------------ *)
(** ** The element type [int] of [main] *)

(** A 32-bit [int] as a [Z] in [-2^31, 2^31).  C++ leaves signed overflow
    undefined; results are brought back into the range by two's-complement
    wrap-around, which is what the usual targets compute.  The values in
    [main] stay far from the bounds. *)
Definition int : Type := Z.

Definition int_wrap (z : Z) : int :=
  ((z + 2147483648) mod 4294967296 - 2147483648)%Z.

Definition int_add (x y : int) : int := int_wrap (x + y).
Definition int_mul (x y : int) : int := int_wrap (x * y).
(** [%] truncates towards zero. *)
Definition int_rem (x y : int) : int := Z.rem x y.

#[export] Instance int_Additive : Additive int :=
  {| zero := 0%Z; plus := int_add |}.

(** [out << int]: decimal digits, with a leading minus sign when negative. *)
#[export] Instance int_Printable : Printable int :=
  {| show := fun z => NilZero.string_of_int (Z.to_int z) |}.

(** The lists and lambdas of [main]. *)
Definition main_as : List int := cons 1%Z (cons 2%Z (cons 3%Z nil)).
Definition main_bs : List int := 1%Z &= 2%Z &= 3%Z &= nil.
Definition main_double (x : int) : int := int_mul x 2%Z.
Definition main_even (x : int) : bool := (int_rem x 2%Z =? 0)%Z.
Definition main_cs : List int := map main_double main_bs.
Definition main_ds : List int := filter main_even main_bs.

(** The tail chain as a standard list, to state order and positions. *)
Fixpoint elements {T} (l : List T) : list T :=
  match l with
  | Cons head tail => head :: elements tail
  | Nil => []
  end.

(* ------------------------------------------------------------------ *)
(** ** The program on a store *)

(** A [List<T>::ptr] is an address; a node is what [new List<T>()] leaves
    behind once [cons] or [nil] has filled its fields.  Nodes are never
    written again and this model never frees one (a [shared_ptr] frees a node
    only when nothing reaches it any more). *)
Definition ptr : Type := nat.

Inductive Node (T : Type) : Type :=
| NodeCons (head : T) (tail : ptr)
| NodeNil.

Arguments NodeNil {T}.

(** What an observer of a run records: [Visit p] when [cases] dispatches on
    the node at [p], [Call x] when a function supplied by the caller of [map]
    or [filter] is applied to [x]. *)
Inductive Event (T : Type) : Type :=
| Visit (p : ptr)
| Call (x : T).

Arguments Visit {T}.

(** The store and the record of the run, most recent event first. *)
Record State (T : Type) : Type := mkState {
  heap : list (Node T);
  log : list (Event T)
}.

(** A computation reads and extends the state; [None] is a dangling address
    or exhausted fuel. *)
Definition M (T A : Type) : Type := State T -> option (A * State T).

Definition ret {T A} (a : A) : M T A := fun s => Some (a, s).

Definition bind {T A B} (m : M T A) (k : A -> M T B) : M T B :=
  fun s =>
    match m s with
    | Some (a, s') => k a s'
    | None => None
    end.

Definition fail {T A} : M T A := fun _ => None.

Notation "x <- m ;; k" := (bind m (fun x => k))
  (at level 61, m at next level, right associativity) : adt_scope.
Notation "m ;;; k" := (bind m (fun _ => k))
  (at level 61, right associativity) : adt_scope.

Definition alloc {T} (n : Node T) : M T ptr :=
  fun s => Some (List.length (heap s), mkState (heap s ++ [n]) (log s)).

Definition load {T} (p : ptr) : M T (Node T) :=
  fun s =>
    match nth_error (heap s) p with
    | Some n => Some (n, s)
    | None => None
    end.

Definition emit {T} (e : Event T) : M T unit :=
  fun s => Some (tt, mkState (heap s) (e :: log s)).

Section OnStore.
Context {T : Type}.

(** [List<T>::cons] and [List<T>::nil]: a fresh node each time, the tail
    shared by address. *)
Definition List_cons_h (head : T) (tail : ptr) : M T ptr :=
  alloc (NodeCons head tail).

Definition List_nil_h : M T ptr := alloc NodeNil.

Definition op_and_assign_h (head : T) (tail : ptr) : M T ptr :=
  List_cons_h head tail.

(** [cases<R>(cons_case, nil_case)] on the node [list] points to: the
    dispatch is recorded, then the node is read and one branch runs on its
    fields. *)
Definition cases_h {R} (list : ptr)
    (cons_case : T -> ptr -> M T R) (nil_case : unit -> M T R) : M T R :=
  emit (Visit list) ;;;
  n <- load list ;;
  match n with
  | NodeCons head tail => cons_case head tail
  | NodeNil => nil_case tt
  end.

(** [foldr]; the result for the tail is computed before [f] is applied.
    [fuel] bounds the depth of nested calls. *)
Fixpoint foldr_h {R} (fuel : nat) (f : T -> R -> M T R) (acc : R) (list : ptr)
    : M T R :=
  match fuel with
  | O => fail
  | S fuel' =>
      cases_h list
        (fun head tail => r <- foldr_h fuel' f acc tail ;; f head r)
        (fun _ => ret acc)
  end.

Definition sum_h `{Additive T} (fuel : nat) (list : ptr) : M T T :=
  foldr_h fuel (fun i s => ret (plus i s)) zero list.

(** [map]: the seed [nil<U>()] is a fresh node; the lambda applies [f] and
    puts the result in front of the accumulator [us]. *)
Definition map_h (fuel : nat) (f : T -> T) (ts : ptr) : M T ptr :=
  n <- List_nil_h ;;
  foldr_h fuel
    (fun x us => emit (Call x) ;;; op_and_assign_h (f x) us)
    n ts.

(** [filter]: the lambda applies [f] to the head and, in both branches,
    calls [filter] on its second argument, the result [foldr] computed for
    the tail. *)
Fixpoint filter_h (fuel : nat) (f : T -> bool) (list : ptr) : M T ptr :=
  match fuel with
  | O => fail
  | S fuel' =>
      n <- List_nil_h ;;
      foldr_h fuel'
        (fun head tail =>
           emit (Call head) ;;;
           if f head
           then r <- filter_h fuel' f tail ;; op_and_assign_h head r
           else filter_h fuel' f tail)
        n list
  end.

(** Nested constructor calls, innermost first:
    [cons(1, cons(2, cons(3, nil<int>())))]. *)
Fixpoint build (l : List T) : M T ptr :=
  match l with
  | Nil => List_nil_h
  | Cons head tail => q <- build tail ;; List_cons_h head q
  end.

(** Address [p] of store [h] holds the list [l]. *)
Fixpoint repr (h : list (Node T)) (p : ptr) (l : List T) : Prop :=
  match l with
  | Nil => nth_error h p = Some NodeNil
  | Cons head tail =>
      exists q, nth_error h p = Some (NodeCons head q) /\ repr h q tail
  end.

Definition is_visit (e : Event T) : bool :=
  match e with Visit _ => true | Call _ => false end.

Definition is_call (e : Event T) : bool :=
  match e with Visit _ => false | Call _ => true end.

(** How many nodes [cases] has dispatched on, and how many times a
    caller-supplied function has run. *)
Definition visits (s : State T) : nat :=
  List.length (List.filter is_visit (log s)).

Definition calls (s : State T) : nat :=
  List.length (List.filter is_call (log s)).

(** The addresses visited, oldest first. *)
Definition visited (s : State T) : list ptr :=
  rev (flat_map (fun e => match e with Visit p => [p] | Call _ => [] end)
                (log s)).

End OnStore.

Definition empty_state {T} : State T := mkState [] [].

(** The store once [main] has built [bs], which then sits at address 3. *)
Definition main_store : State int :=
  mkState [NodeNil; NodeCons 3%Z 0; NodeCons 2%Z 1; NodeCons 1%Z 2] [].

(** [filter<int>(even, bs)] and [map<int,int>(double, bs)] as [main] runs
    them, on a store that holds [bs] only. *)
Definition main_filter_run : option (ptr * State int) :=
  (bs <- build main_bs ;; filter_h 5 main_even bs) empty_state.

Definition main_map_run : option (ptr * State int) :=
  (bs <- build main_bs ;; map_h 5 main_double bs) empty_state.

(** The store of [s'] is the store of [s] with nodes added at its end. *)
Definition grows {T} (s s' : State T) : Prop :=
  exists new, heap s' = heap s ++ new.

(** The sum of [c head tail] over the [Cons] nodes of a list. *)
Fixpoint total {T} (c : T -> List T -> nat) (l : List T) : nat :=
  match l with
  | Cons head tail => c head tail + total c tail
  | Nil => 0
  end.

(** What a run of [filter_h] costs, read off its text: [foldr] dispatches on
    every node of [list] and calls the lambda at every [Cons]; the lambda
    applies the predicate once and runs [filter] on the folded tail. *)
Fixpoint filter_visits {T} (fuel : nat) (f : T -> bool) (list : List T) : nat :=
  match fuel with
  | O => 0
  | S fuel' =>
      S (length list)
      + total (fun _ tail => filter_visits fuel' f (filter_spec f tail)) list
  end.

Fixpoint filter_calls {T} (fuel : nat) (f : T -> bool) (list : List T) : nat :=
  match fuel with
  | O => 0
  | S fuel' =>
      total (fun _ tail => S (filter_calls fuel' f (filter_spec f tail))) list
  end.

(* ------------------------------------------------------------------ *)
(** ** The driver, and notions used to state further properties *)

(** [out << std::endl]: a line feed. *)
Definition endl : string := String (ascii_of_nat 10) EmptyString.

(** One output statement of [main]:
    [std::cout << "sum(" << *shown << ") = " << sum<int>(summed) << std::endl].
    The second statement of [main] prints [*as] and sums [bs]. *)
Definition main_line (out : ostream) (shown summed : List int) : ostream :=
  put_string
    (put (put_string (put_list (put_string out "sum(") shown) ") = ")
         (sum summed))
    endl.

(** [main], as what it writes to [std::cout]. *)
Definition main : ostream :=
  let as_ := cons 1%Z (cons 2%Z (cons 3%Z nil)) in
  let bs := 1%Z &= 2%Z &= 3%Z &= nil in
  let cs := map (fun x => int_mul x 2%Z) bs in
  let ds := filter (fun x => (int_rem x 2%Z =? 0)%Z) bs in
  let out := main_line EmptyString as_ as_ in
  let out := main_line out as_ bs in
  let out := main_line out cs cs in
  main_line out ds ds.

(** The values an [int] holds. *)
Definition int_range (z : Z) : Prop :=
  (-2147483648 <= z < 2147483648)%Z.

(** The sum of the elements as integers, without bounds. *)
Definition Zsum (l : List int) : Z := fold_right Z.add 0%Z (elements l).

(** No addition [sum] performs overflows: adding each head to the sum of
    what follows it stays in range. *)
Fixpoint no_overflow (l : List int) : Prop :=
  match l with
  | Cons head tail => no_overflow tail /\ int_range (head + Zsum tail)
  | Nil => True
  end.

(** Address [p] of store [h] holds the list [l] in nodes that all sit at
    address [k] or above. *)
Fixpoint repr_above {T} (k : nat) (h : list (Node T)) (p : ptr) (l : List T)
    : Prop :=
  k <= p /\
  match l with
  | Nil => nth_error h p = Some NodeNil
  | Cons head tail =>
      exists q, nth_error h p = Some (NodeCons head q) /\ repr_above k h q tail
  end.

(** How deep the calls of [filter] nest on a list: one call for the empty
    list; otherwise two more than the number of elements the test keeps in
    the tail, since the lambda's call at the head receives the filtered tail
    and the calls below it receive what is left of that, one element less
    each time. *)
Definition filter_depth {T} (f : T -> bool) (list : List T) : nat :=
  match list with
  | Nil => 1
  | Cons _ tail => 2 + length (filter_spec f tail)
  end.

(** A text without the blank character. *)
Fixpoint no_blank (s : string) : Prop :=
  match s with
  | EmptyString => True
  | String c s' => c <> " "%char /\ no_blank s'
  end.

(** The specification's filter run on the store: one [foldRight] whose
    combining function applies the test to the head and either puts the head
    in front of the accumulator or hands the accumulator back.  It makes no
    call of its own besides the fold. *)
Definition filter_spec_h {T} (fuel : nat) (pred : T -> bool) (list : ptr)
    : M T ptr :=
  n <- List_nil_h ;;
  foldr_h fuel
    (fun x acc =>
       emit (Call x) ;;;
       if pred x then List_cons_h x acc else ret acc)
    n list.

(** The specification's filter on [main]'s list, from the store [main]'s
    own call starts from. *)
Definition main_filter_spec_run : option (ptr * State int) :=
  (bs <- build main_bs ;; filter_spec_h 5 main_even bs) empty_state.

(* ------------------------------------------------------------------ *)
(** ** Elimination and construction *)

(** Every value is one of the two constructors applied to its fields. *)
Lemma List_shape {T} (l : List T) :
  (exists h t, l = cons h t) \/ l = nil.
Proof.
  destruct l as [h t|]; [left; exists h, t | right]; reflexivity.
Qed.

Lemma tag_cons {T} (h : T) (t : List T) : tag (cons h t) = TagCons.
Proof. reflexivity. Qed.

Lemma tag_nil {T} : tag (@nil T) = TagNil.
Proof. reflexivity. Qed.

(** C4. [cases] on [cons h t] returns what the first branch returns on [h]
    and [t]; on [nil] it returns what the second branch returns.  When each
    branch also records that it ran, the record of a call of [cases] on any
    list has one entry, the constructor the list was built with, and the
    value is that branch's. *)
Theorem cases_elimination {T R} (cons_case : T -> List T -> R)
    (nil_case : unit -> R) :
  (forall h t, cases (cons h t) cons_case nil_case = cons_case h t) /\
  cases nil cons_case nil_case = nil_case tt /\
  (forall l : List T,
     cases l (fun h t => ([TagCons], cons_case h t))
             (fun u => ([TagNil], nil_case u))
     = ([tag l], cases l cons_case nil_case)) /\
  (forall l : List T,
     match tag l with
     | TagCons => exists h t, l = cons h t /\
                              cases l cons_case nil_case = cons_case h t
     | TagNil => l = nil /\ cases l cons_case nil_case = nil_case tt
     end).
Proof.
  repeat split.
  - intros [h t|]; reflexivity.
  - intros [h t|]; cbn.
    + exists h, t. split; reflexivity.
    + split; reflexivity.
Qed.

(** C8. The operator chain, grouped from the right, is the nested
    constructor calls. *)
Theorem infix_is_nested_cons {T} (a b c : T) :
  a &= b &= c &= nil = cons a (cons b (cons c nil)).
Proof. reflexivity. Qed.

(* ------------------------------------------------------------------ *)
(** ** The fold *)

Lemma foldr_nil {R T} (f : T -> R -> R) (seed : R) :
  foldr f seed nil = seed.
Proof. reflexivity. Qed.

Lemma foldr_cons {R T} (f : T -> R -> R) (seed : R) (h : T) (t : List T) :
  foldr f seed (cons h t) = f h (foldr f seed t).
Proof. reflexivity. Qed.

(** C1. The fold of the empty list is the seed; the fold of [cons h t]
    combines [h] with the fold of [t]. *)
Theorem foldr_laws {R T} (f : T -> R -> R) (seed : R) (h : T) (t : List T) :
  foldr f seed (@nil T) = seed /\
  foldr f seed (cons h t) = f h (foldr f seed t).
Proof. split; [apply foldr_nil | apply foldr_cons]. Qed.

(** The fold is the standard right fold of the element sequence. *)
Lemma foldr_elements {R T} (f : T -> R -> R) (seed : R) (l : List T) :
  foldr f seed l = fold_right f seed (elements l).
Proof.
  induction l as [h t IH|]; cbn; [rewrite <- IH |]; reflexivity.
Qed.

Lemma length_elements {T} (l : List T) :
  List.length (elements l) = length l.
Proof.
  induction l as [h t IH|]; cbn; [rewrite IH |]; reflexivity.
Qed.

(** C5. [sum] is the fold with [+] and zero; on [main]'s list it is 6 and on
    the empty list of [int] it is 0. *)
Theorem sum_is_fold_plus :
  (forall T (A : Additive T) (l : List T),
     sum l = foldr (fun x acc => plus x acc) zero l) /\
  sum (cons 1%Z (cons 2%Z (cons 3%Z nil))) = 6%Z /\
  sum (@nil int) = 0%Z.
Proof. repeat split. Qed.

(* ------------------------------------------------------------------ *)
(** ** filter *)

Section Filter.
Context {T : Type}.
Variable pred : T -> bool.

Lemma filter_spec_Cons (h : T) (t : List T) :
  filter_spec pred (Cons h t)
  = if pred h then Cons h (filter_spec pred t) else filter_spec pred t.
Proof. reflexivity. Qed.

Ltac filter_spec_step h t :=
  change (filter_spec pred (Cons h t))
    with (if pred h then Cons h (filter_spec pred t)
          else filter_spec pred t) in *.

Lemma filter_spec_length (l : List T) :
  length (filter_spec pred l) <= length l.
Proof.
  induction l as [h t IH|]; [| apply Nat.le_refl].
  filter_spec_step h t. destruct (pred h); cbn [length]; lia.
Qed.

(** Filtering what has been filtered changes nothing: this is why the
    second call of [filter] in the source's lambda does not show in the
    value. *)
Lemma filter_spec_idem (l : List T) :
  filter_spec pred (filter_spec pred l) = filter_spec pred l.
Proof.
  induction l as [h t IH|]; [| reflexivity].
  filter_spec_step h t. destruct (pred h) eqn:E; [| exact IH].
  filter_spec_step h (filter_spec pred t). rewrite E, IH. reflexivity.
Qed.

Lemma filter_spec_elements (l : List T) :
  elements (filter_spec pred l) = List.filter pred (elements l).
Proof.
  induction l as [h t IH|]; [| reflexivity].
  filter_spec_step h t. cbn [elements List.filter].
  destruct (pred h); cbn [elements]; rewrite IH; reflexivity.
Qed.

Lemma filter_spec_all (l : List T) :
  (forall x, pred x = true) -> filter_spec pred l = l.
Proof.
  intros Hp. induction l as [h t IH|]; [| reflexivity].
  filter_spec_step h t. rewrite Hp, IH. reflexivity.
Qed.

(** The combining function the source hands to [foldr], at depth [fuel]. *)
Let step (fuel : nat) (head : T) (acc : option (List T)) : option (List T) :=
  match acc with
  | None => None
  | Some tail =>
      if pred head
      then option_map (fun r => head &= r) (filter_fuel fuel pred tail)
      else filter_fuel fuel pred tail
  end.

Lemma filter_fuel_S (fuel : nat) (l : List T) :
  filter_fuel (S fuel) pred l = foldr (step fuel) (Some nil) l.
Proof. reflexivity. Qed.

(** With more fuel than the list has elements, [filter] returns, and it
    returns the list of the specification. *)
Lemma filter_fuel_enough (fuel : nat) :
  forall l : List T,
    length l < fuel -> filter_fuel fuel pred l = Some (filter_spec pred l).
Proof.
  induction fuel as [|fuel IHfuel]; intros l Hl; [lia |].
  rewrite filter_fuel_S.
  assert (Hlen : length l <= fuel) by lia. clear Hl.
  induction l as [h t IHt|]; [| reflexivity].
  cbn [length] in Hlen.
  change (foldr (step fuel) (Some nil) (Cons h t))
    with (step fuel h (foldr (step fuel) (Some nil) t)).
  rewrite IHt by lia. unfold step.
  rewrite IHfuel by (pose proof (filter_spec_length t); lia).
  rewrite filter_spec_idem. filter_spec_step h t.
  destruct (pred h); reflexivity.
Qed.

(** Whatever the fuel, a returned list is the list of the specification. *)
Lemma filter_fuel_sound (fuel : nat) :
  forall (l r : List T),
    filter_fuel fuel pred l = Some r -> r = filter_spec pred l.
Proof.
  induction fuel as [|fuel IHfuel]; intros l r; [discriminate |].
  rewrite filter_fuel_S. revert r.
  induction l as [h t IHt|]; intros r.
  - change (foldr (step fuel) (Some nil) (Cons h t))
      with (step fuel h (foldr (step fuel) (Some nil) t)).
    destruct (foldr (step fuel) (Some nil) t) as [a|]; [| discriminate].
    rewrite (IHt a eq_refl). unfold step. filter_spec_step h t.
    destruct (filter_fuel fuel pred (filter_spec pred t)) as [b|] eqn:E;
      [apply IHfuel in E; rewrite filter_spec_idem in E; subst b |];
      destruct (pred h); cbn; intros [= <-]; reflexivity.
  - intros [= <-]. reflexivity.
Qed.

(** The nesting of calls is as deep as the list is long: with a predicate
    that keeps everything and no more fuel than elements, the bound is
    hit. *)
Lemma filter_fuel_short (fuel : nat) :
  forall l : List T,
    (forall x, pred x = true) -> fuel <= length l ->
    filter_fuel fuel pred l = None.
Proof.
  induction fuel as [|fuel IHfuel]; intros l Hp Hl; [reflexivity |].
  rewrite filter_fuel_S.
  destruct l as [h t|]; [| cbn in Hl; lia].
  cbn [length] in Hl.
  change (foldr (step fuel) (Some nil) (Cons h t))
    with (step fuel h (foldr (step fuel) (Some nil) t)).
  destruct (foldr (step fuel) (Some nil) t) as [a|] eqn:E; [| reflexivity].
  rewrite <- filter_fuel_S in E. apply filter_fuel_sound in E.
  rewrite filter_spec_all in E by exact Hp. subst a.
  unfold step. rewrite Hp, IHfuel by (trivial; lia). reflexivity.
Qed.

Lemma filter_is_spec (l : List T) : filter pred l = filter_spec pred l.
Proof.
  unfold filter. rewrite filter_fuel_enough by lia. reflexivity.
Qed.

End Filter.

(** The value [filter] returns is the value of the specification's single
    fold, for every predicate and list; and the fuel-bounded run of the
    source's [filter] returns it as soon as the fuel exceeds the length of
    the list.  The source reaches that value through a further call of
    [filter] on the accumulator; [filter_spec_idem] is why the value does not
    show it. *)
Theorem filter_refines_spec {T} (pred : T -> bool) (l : List T) :
  filter pred l
  = foldr (fun x acc => if pred x then cons x acc else acc) nil l /\
  forall fuel, length l < fuel ->
    filter_fuel fuel pred l
    = Some (foldr (fun x acc => if pred x then cons x acc else acc) nil l).
Proof.
  split.
  - apply filter_is_spec.
  - intros fuel Hfuel. apply filter_fuel_enough, Hfuel.
Qed.

Lemma filter_refines_spec_witness :
  length main_bs < 4 /\
  filter_fuel 4 main_even main_bs = Some (cons 2%Z nil).
Proof.
  split; [cbn; lia |].
  exact (proj2 (filter_refines_spec main_even main_bs) 4 ltac:(cbn; lia)).
Defined.

(** C7. [filter pred l] holds the elements of [l] that satisfy [pred], as
    often and in the order they occur in [l]; it is no longer than [l]; and
    the even elements of 1, 2, 3 print as [2 &= nil]. *)
Theorem filter_keeps_matching {T} (pred : T -> bool) (l : List T) :
  elements (filter pred l) = List.filter pred (elements l) /\
  (forall x, In x (elements (filter pred l))
             <-> In x (elements l) /\ pred x = true) /\
  length (filter pred l) <= length l /\
  render (filter main_even (1%Z &= 2%Z &= 3%Z &= nil)) = "2 &= nil"%string.
Proof.
  rewrite filter_is_spec, filter_spec_elements.
  split; [reflexivity |]. split; [| split].
  - intros x. apply filter_In.
  - apply filter_spec_length.
  - reflexivity.
Qed.

Lemma filter_keeps_matching_witness :
  In 2%Z (elements (filter main_even main_bs)).
Proof.
  apply (proj1 (proj2 (filter_keeps_matching main_even main_bs))).
  split; [cbn; tauto | reflexivity].
Defined.

(* ------------------------------------------------------------------ *)
(** ** map, on values *)

Section Map.
Context {T : Type}.
Variable f : T -> T.

Lemma map_Cons (h : T) (t : List T) :
  map f (Cons h t) = Cons (f h) (map f t).
Proof. reflexivity. Qed.

Lemma map_length (l : List T) : length (map f l) = length l.
Proof.
  induction l as [h t IH|]; [| reflexivity].
  change (map f (Cons h t)) with (Cons (f h) (map f t)).
  cbn [length]. rewrite IH. reflexivity.
Qed.

Lemma map_elements (l : List T) :
  elements (map f l) = List.map f (elements l).
Proof.
  induction l as [h t IH|]; [| reflexivity].
  change (map f (Cons h t)) with (Cons (f h) (map f t)).
  cbn [elements List.map]. rewrite IH. reflexivity.
Qed.

Lemma map_nth (l : List T) (i : nat) :
  nth_error (elements (map f l)) i = option_map f (nth_error (elements l) i).
Proof. rewrite map_elements. apply nth_error_map. Qed.

End Map.

(* ------------------------------------------------------------------ *)
(** ** Printing *)

Lemma string_app_assoc (a b c : string) :
  ((a ++ b) ++ c = a ++ (b ++ c))%string.
Proof.
  induction a as [|x a IH]; cbn; [| rewrite IH]; reflexivity.
Qed.

Section Render.
Context {T : Type} `{Printable T}.

Lemma put_list_Cons (out : ostream) (h : T) (t : List T) :
  put_list out (Cons h t) = put_list (put_string (put out h) " &= ") t.
Proof. reflexivity. Qed.

(** Printing a list appends its rendering to what the stream holds. *)
Lemma put_list_render (l : List T) :
  forall out : ostream, put_list out l = (out ++ render l)%string.
Proof.
  unfold render.
  induction l as [h t IH|]; intros out; [| reflexivity].
  rewrite !put_list_Cons, (IH (put_string (put out h) " &= ")),
    (IH (put_string (put EmptyString h) " &= ")).
  unfold put, put_string. cbn [append].
  rewrite !string_app_assoc. reflexivity.
Qed.

Lemma render_Cons (h : T) (t : List T) :
  render (Cons h t) = (show h ++ " &= " ++ render t)%string.
Proof.
  unfold render at 1. rewrite put_list_Cons, put_list_render.
  unfold put, put_string. cbn [append].
  rewrite !string_app_assoc. reflexivity.
Qed.

End Render.

(** C9. A non-empty list prints as its head, the token [ &= ] and the
    printing of its tail; the empty list prints as [nil]; printing onto a
    stream appends that text; and 1, 2, 3 prints as
    [1 &= 2 &= 3 &= nil]. *)
Theorem render_notation :
  (forall T (P : Printable T) (h : T) (t : List T),
     render (cons h t) = (show h ++ " &= " ++ render t)%string) /\
  (forall T (P : Printable T), render (@nil T) = "nil"%string) /\
  (forall T (P : Printable T) (out : ostream) (l : List T),
     put_list out l = (out ++ render l)%string) /\
  render (cons 1%Z (cons 2%Z (cons 3%Z nil))) = "1 &= 2 &= 3 &= nil"%string.
Proof.
  split; [| split; [| split]].
  - intros T P h t. apply render_Cons.
  - reflexivity.
  - intros T P out l. apply put_list_render.
  - reflexivity.
Qed.

(* ------------------------------------------------------------------ *)
(** ** The store: basic facts *)

Section StoreBasics.
Context {T : Type}.

Lemma grows_refl (s : State T) : grows s s.
Proof. exists []. symmetry. apply app_nil_r. Qed.

Lemma grows_trans (s1 s2 s3 : State T) :
  grows s1 s2 -> grows s2 s3 -> grows s1 s3.
Proof.
  intros [n1 H1] [n2 H2]. exists (n1 ++ n2).
  rewrite H2, H1, app_assoc. reflexivity.
Qed.

Lemma grows_emit (s : State T) (e : Event T) :
  grows s (mkState (heap s) (e :: log s)).
Proof. exists []. symmetry. apply app_nil_r. Qed.

Lemma grows_alloc (s : State T) (n : Node T) :
  grows s (mkState (heap s ++ [n]) (log s)).
Proof. exists [n]. reflexivity. Qed.

(** A node that is in the store stays where it is and as it is. *)
Lemma lookup_app (h new : list (Node T)) (p : ptr) (n : Node T) :
  nth_error h p = Some n -> nth_error (h ++ new) p = Some n.
Proof.
  intros H. rewrite nth_error_app1; [exact H |].
  apply nth_error_Some. congruence.
Qed.

Lemma repr_app (h new : list (Node T)) (l : List T) :
  forall p, repr h p l -> repr (h ++ new) p l.
Proof.
  induction l as [x t IH|]; cbn [repr].
  - intros p (q & Hp & Hq). exists q. split; [| apply IH, Hq].
    apply lookup_app, Hp.
  - intros p Hp. apply lookup_app, Hp.
Qed.

Lemma grows_lookup (s s' : State T) (p : ptr) (n : Node T) :
  grows s s' ->
  nth_error (heap s) p = Some n -> nth_error (heap s') p = Some n.
Proof. intros [new E] H. rewrite E. apply lookup_app, H. Qed.

Lemma grows_repr (s s' : State T) (l : List T) (p : ptr) :
  grows s s' -> repr (heap s) p l -> repr (heap s') p l.
Proof. intros [new E] H. rewrite E. apply repr_app, H. Qed.

(** An address holds one list at most. *)
Lemma repr_fun (h : list (Node T)) (l1 : List T) :
  forall (l2 : List T) (p : ptr), repr h p l1 -> repr h p l2 -> l1 = l2.
Proof.
  induction l1 as [x t IH|]; intros [y u|] p; cbn [repr].
  - intros (q & Hp & Hq) (q' & Hp' & Hq').
    rewrite Hp in Hp'. injection Hp' as <- <-. f_equal.
    eapply IH; eassumption.
  - intros (q & Hp & _) Hp'. congruence.
  - intros Hp (q & Hp' & _). congruence.
  - reflexivity.
Qed.

Lemma nth_error_fresh (h : list (Node T)) (n : Node T) :
  nth_error (h ++ [n]) (List.length h) = Some n.
Proof.
  rewrite nth_error_app2 by apply Nat.le_refl.
  rewrite Nat.sub_diag. reflexivity.
Qed.

Lemma cases_h_eq {R} (p : ptr) (cons_case : T -> ptr -> M T R)
    (nil_case : unit -> M T R) (s : State T) :
  cases_h p cons_case nil_case s
  = match nth_error (heap s) p with
    | Some (NodeCons head tail) =>
        cons_case head tail (mkState (heap s) (Visit p :: log s))
    | Some NodeNil => nil_case tt (mkState (heap s) (Visit p :: log s))
    | None => None
    end.
Proof.
  unfold cases_h, bind, emit, load. cbn [heap].
  destruct (nth_error (heap s) p) as [[head tail|]|]; reflexivity.
Qed.

Lemma total_zero (l : List T) : total (fun _ _ => 0) l = 0.
Proof. induction l as [h t IH|]; cbn; [exact IH | reflexivity]. Qed.

Lemma total_one (l : List T) : total (fun _ _ => 1) l = length l.
Proof. induction l as [h t IH|]; cbn; [rewrite IH |]; reflexivity. Qed.

(** [build] puts its argument in the store. *)
Lemma build_repr (l : List T) :
  forall s : State T,
    exists p s', build l s = Some (p, s') /\ grows s s' /\
                 repr (heap s') p l /\ log s' = log s.
Proof.
  induction l as [h t IH|]; intros s; cbn [build].
  - destruct (IH s) as (q & s1 & E & G & Hq & Hlog).
    unfold bind. rewrite E. unfold List_cons_h, alloc.
    eexists _, _. split; [reflexivity |]. cbn [heap log].
    split; [eapply grows_trans; [exact G | apply grows_alloc] |].
    split; [| exact Hlog].
    exists q. split; [apply nth_error_fresh |].
    apply repr_app, Hq.
  - eexists _, _. split; [reflexivity |]. cbn [heap log].
    split; [apply grows_alloc |]. split; [apply nth_error_fresh | reflexivity].
Qed.

End StoreBasics.

(* ------------------------------------------------------------------ *)
(** ** The fold on the store *)

(** One induction serves [sum], [map] and [filter]: if the combining
    function, started on a result for the tail, returns a result for the
    whole and its cost is known, then so does the fold, which adds one
    dispatch per node. *)
Section FoldrSpec.
Context {T R : Type}.
Variable f : T -> R -> M T R.
Variable acc : R.
Variable Base : State T -> Prop.
Variable Post : State T -> List T -> R -> Prop.
Variables cv cc : T -> List T -> nat.
Variable bound : nat.

Hypothesis Base_grows : forall s s', Base s -> grows s s' -> Base s'.
Hypothesis Post_nil : forall s, Base s -> Post s Nil acc.
Hypothesis f_spec :
  forall h t r s,
    length t < bound -> Base s -> Post s t r ->
    exists r' s',
      f h r s = Some (r', s') /\ grows s s' /\ Post s' (Cons h t) r' /\
      visits s' = visits s + cv h t /\ calls s' = calls s + cc h t.

Lemma foldr_h_spec (l : List T) :
  forall fuel p s,
    length l <= bound -> length l < fuel ->
    Base s -> repr (heap s) p l ->
    exists r s',
      foldr_h fuel f acc p s = Some (r, s') /\ grows s s' /\ Post s' l r /\
      visits s' = visits s + S (length l) + total cv l /\
      calls s' = calls s + total cc l.
Proof.
  induction l as [h t IH|]; intros fuel p s Hb Hf HB Hr;
    (destruct fuel as [|fuel]; [inversion Hf |]);
    cbn [foldr_h]; rewrite cases_h_eq; cbn [repr length] in *.
  - destruct Hr as (q & Hp & Hq). rewrite Hp.
    set (s1 := mkState (heap s) (Visit p :: log s)).
    destruct (IH fuel q s1) as (r & s2 & E & G & HP & Hv & Hc);
      [lia | lia | apply (Base_grows HB), grows_emit | exact Hq |].
    assert (HB2 : Base s2).
    { apply (Base_grows HB). eapply grows_trans; [apply grows_emit | exact G]. }
    destruct (f_spec h (t := t) (r := r) (s := s2)) as (r' & s3 & E' & G' & HP' & Hv' & Hc');
      [lia | exact HB2 | exact HP |].
    exists r', s3. unfold bind. rewrite E. split; [exact E' |].
    split; [eapply grows_trans; [apply grows_emit |];
            eapply grows_trans; eassumption |].
    split; [exact HP' |].
    rewrite Hv', Hc', Hv, Hc. cbn [total]. unfold visits, calls, s1. cbn.
    split; lia.
  - rewrite Hr. exists acc. eexists. split; [reflexivity |].
    split; [apply grows_emit |]. split; [apply Post_nil, (Base_grows HB), grows_emit |].
    unfold visits, calls. cbn. split; lia.
Qed.

End FoldrSpec.

(* ------------------------------------------------------------------ *)
(** ** sum, map and filter on the store *)

Section Combinators.
Context {T : Type}.

(** [sum] returns the value-level sum after one dispatch per node. *)
Lemma sum_h_spec `{Additive T} (l : List T) (fuel : nat) (p : ptr) (s : State T) :
  length l < fuel -> repr (heap s) p l ->
  exists s',
    sum_h fuel p s = Some (sum l, s') /\ grows s s' /\
    visits s' = visits s + S (length l) /\ calls s' = calls s.
Proof.
  intros Hf Hr.
  destruct (@foldr_h_spec T T (fun i a => ret (plus i a)) zero
              (fun _ => True) (fun _ t r => r = sum t)
              (fun _ _ => 0) (fun _ _ => 0) (length l))
    with (l := l) (fuel := fuel) (p := p) (s := s)
    as (r & s' & E & G & HP & Hv & Hc); trivial.
  - intros h t r s0 _ _ ->. exists (plus h (sum t)), s0.
    repeat split; [apply grows_refl | lia | lia].
  - subst r. exists s'. rewrite !total_zero in *.
    repeat split; [exact E | exact G | lia | lia].
Qed.

(** [map] returns a list that holds the value-level result; it adds nodes
    to the store and leaves the others alone; it dispatches once per node
    of its argument and applies [f] once per element. *)
Lemma map_h_spec (f : T -> T) (l : List T) (fuel : nat) (ts : ptr) (s : State T) :
  length l < fuel -> repr (heap s) ts l ->
  exists us s',
    map_h fuel f ts s = Some (us, s') /\ grows s s' /\
    repr (heap s') us (map f l) /\
    visits s' = visits s + S (length l) /\ calls s' = calls s + length l.
Proof.
  intros Hf Hr. unfold map_h, bind, List_nil_h, alloc.
  set (n := List.length (heap s)).
  set (s1 := mkState (heap s ++ [NodeNil]) (log s)).
  destruct (@foldr_h_spec T ptr
              (fun x us => emit (Call x) ;;; op_and_assign_h (f x) us) n
              (fun s0 => nth_error (heap s0) n = Some NodeNil)
              (fun s0 t r => repr (heap s0) r (map f t))
              (fun _ _ => 0) (fun _ _ => 1) (length l))
    with (l := l) (fuel := fuel) (p := ts) (s := s1)
    as (r & s' & E & G & HP & Hv & Hc); trivial.
  - intros s0 s0' H0 G0. eapply grows_lookup; eassumption.
  - intros h t r s0 _ _ HP.
    eexists _, _. split; [reflexivity |]. cbn [heap log].
    split; [exists [NodeCons (f h) r]; reflexivity |].
    split; [| unfold visits, calls; cbn; split; lia].
    change (map f (Cons h t)) with (Cons (f h) (map f t)).
    exists r. split; [apply nth_error_fresh | apply repr_app, HP].
  - apply nth_error_fresh.
  - apply repr_app, Hr.
  - exists r, s'. rewrite total_zero, total_one in *.
    split; [exact E |].
    split; [eapply grows_trans; [apply grows_alloc | exact G] |].
    split; [exact HP |]. rewrite Hv, Hc. unfold visits, calls. cbn [log s1].
    split; lia.
Qed.

Variable pred : T -> bool.

(** [filter], given enough fuel, returns a list that holds the
    specification's result and only adds nodes to the store; its cost is
    [filter_visits] dispatches and [filter_calls] applications of the
    predicate. *)
Lemma filter_h_spec (fuel : nat) :
  forall (l : List T) (p : ptr) (s : State T),
    length l + 1 < fuel -> repr (heap s) p l ->
    exists q s',
      filter_h fuel pred p s = Some (q, s') /\ grows s s' /\
      repr (heap s') q (filter_spec pred l) /\
      visits s' = visits s + filter_visits fuel pred l /\
      calls s' = calls s + filter_calls fuel pred l.
Proof.
  induction fuel as [|fuel IHfuel]; intros l p s Hf Hr; [inversion Hf |].
  cbn [filter_h filter_visits filter_calls].
  unfold bind at 1. unfold List_nil_h, alloc.
  set (n := List.length (heap s)).
  set (s1 := mkState (heap s ++ [NodeNil]) (log s)).
  destruct (@foldr_h_spec T ptr
              (fun head tail =>
                 emit (Call head) ;;;
                 if pred head
                 then r <- filter_h fuel pred tail ;; op_and_assign_h head r
                 else filter_h fuel pred tail) n
              (fun s0 => nth_error (heap s0) n = Some NodeNil)
              (fun s0 t r => repr (heap s0) r (filter_spec pred t))
              (fun _ t => filter_visits fuel pred (filter_spec pred t))
              (fun _ t => S (filter_calls fuel pred (filter_spec pred t)))
              (fuel - 1))
    with (l := l) (fuel := fuel) (p := p) (s := s1)
    as (r & s' & E & G & HP & Hv & Hc); try lia.
  - intros s0 s0' H0 G0. eapply grows_lookup; eassumption.
  - intros s0 H0. exact H0.
  - intros h t r s0 Ht _ HP.
    set (s2 := mkState (heap s0) (Call h :: log s0)).
    destruct (IHfuel (filter_spec pred t) r s2)
      as (q & s3 & E3 & G3 & H3 & Hv3 & Hc3);
      [pose proof (filter_spec_length pred t); lia | exact HP |].
    rewrite filter_spec_idem in H3.
    change (filter_spec pred (Cons h t))
      with (if pred h then Cons h (filter_spec pred t)
            else filter_spec pred t).
    unfold bind at 1. cbn [emit]. fold s2.
    destruct (pred h).
    + unfold bind. rewrite E3. unfold op_and_assign_h, List_cons_h, alloc.
      eexists _, _. split; [reflexivity |]. cbn [heap log].
      split.
      { eapply grows_trans; [apply grows_emit |].
        eapply grows_trans; [exact G3 | apply grows_alloc]. }
      split.
      { exists q. split; [apply nth_error_fresh | apply repr_app, H3]. }
      unfold visits, calls in *. cbn [log] in *. rewrite Hv3, Hc3.
      cbn. split; lia.
    + exists q, s3. split; [exact E3 |].
      split; [eapply grows_trans; [apply grows_emit | exact G3] |].
      split; [exact H3 |].
      rewrite Hv3, Hc3. unfold visits, calls. cbn. split; lia.
  - apply nth_error_fresh.
  - apply repr_app, Hr.
  - exists r, s'. split; [exact E |].
    split; [eapply grows_trans; [apply grows_alloc | exact G] |].
    split; [exact HP |].
    rewrite Hv, Hc. unfold visits, calls. cbn. split; lia.
Qed.

(** When the predicate keeps every element, the cost doubles with each
    element. *)
Lemma filter_cost_all_true :
  (forall x, pred x = true) ->
  forall (fuel : nat) (l : List T),
    length l + 1 < fuel ->
    filter_visits fuel pred l + 1 = 2 ^ S (length l) /\
    filter_calls fuel pred l + 1 = 2 ^ length l.
Proof.
  intros Hp. induction fuel as [|fuel IHfuel]; intros l Hf; [inversion Hf |].
  cbn [filter_visits filter_calls].
  assert (Hl : length l + 1 <= fuel) by lia. clear Hf.
  assert (total (fun _ t => filter_visits fuel pred (filter_spec pred t)) l
            + length l + 2 = 2 ^ S (length l) /\
          total (fun _ t => S (filter_calls fuel pred (filter_spec pred t))) l
            + 1 = 2 ^ length l) as [Hv Hc]; [| lia].
  induction l as [h t IH|]; [| cbn; lia].
  cbn [length total] in *.
  rewrite (filter_spec_all pred t Hp).
  destruct (IHfuel t) as [Hv1 Hc1]; [lia |].
  destruct IH as [Hv2 Hc2]; [lia |].
  rewrite (Nat.pow_succ_r' 2 (S (length t))), (Nat.pow_succ_r' 2 (length t)) in *.
  lia.
Qed.

End Combinators.

(* ------------------------------------------------------------------ *)
(** ** map: length, order and the argument left as it was *)

Lemma build_main_bs : build main_bs empty_state = Some (3, main_store).
Proof. reflexivity. Qed.

(** C6. [map f l] is as long as [l]; its element at each position is [f]
    of the element of [l] at that position; run on a store that holds [l],
    [map] returns a list holding that result while every node that was in
    the store, those of [l] among them, is still there unchanged; and
    doubling 1, 2, 3 prints as [2 &= 4 &= 6 &= nil]. *)
Theorem map_preserves {T} (f : T -> T) (l : List T) :
  length (map f l) = length l /\
  (forall i, nth_error (elements (map f l)) i
             = option_map f (nth_error (elements l) i)) /\
  (forall fuel ts s,
     length l < fuel -> repr (heap s) ts l ->
     exists us s',
       map_h fuel f ts s = Some (us, s') /\
       repr (heap s') us (map f l) /\
       repr (heap s') ts l /\
       (forall a n, nth_error (heap s) a = Some n ->
                    nth_error (heap s') a = Some n)) /\
  render (map (fun x => int_mul x 2%Z) (1%Z &= 2%Z &= 3%Z &= nil))
  = "2 &= 4 &= 6 &= nil"%string.
Proof.
  split; [apply map_length |]. split; [apply map_nth |].
  split; [| reflexivity].
  intros fuel ts s Hf Hr.
  destruct (@map_h_spec T f l fuel ts s Hf Hr) as (us & s' & E & G & Hus & _).
  exists us, s'. split; [exact E |]. split; [exact Hus |].
  split; [eapply grows_repr; eassumption |].
  intros a n Ha. eapply grows_lookup; eassumption.
Qed.

Lemma map_preserves_witness :
  length main_bs < 4 /\ repr (heap main_store) 3 main_bs /\
  exists us s',
    map_h 4 main_double 3 main_store = Some (us, s') /\
    repr (heap s') us (map main_double main_bs) /\
    repr (heap s') 3 main_bs.
Proof.
  assert (H1 : length main_bs < 4) by (cbn; lia).
  assert (H2 : repr (heap main_store) 3 main_bs).
  { exists 2. split; [reflexivity |]. exists 1. split; [reflexivity |].
    exists 0. split; reflexivity. }
  split; [exact H1 |]. split; [exact H2 |].
  destruct (proj1 (proj2 (proj2 (map_preserves main_double main_bs)))
              4 3 main_store H1 H2) as (us & s' & E & R1 & R2 & _).
  exists us, s'. split; [exact E |]. split; [exact R1 | exact R2].
Defined.

(* ------------------------------------------------------------------ *)
(** ** Cost *)

(** The nodes [main]'s call of [filter] dispatches on, in order: the four
    nodes of [bs] (addresses 3 down to 0), then nodes of the intermediate
    results the lambda hands back to [filter]. *)
Example main_filter_visited :
  option_map (fun r => visited (snd r)) main_filter_run
  = Some [3; 2; 1; 0; 4; 5; 7; 6; 8].
Proof. reflexivity. Qed.

(** The fold-based [sum] and [map] return after one dispatch per node, on
    any list, from any store that holds it. *)
Lemma sum_map_linear {T} `{Additive T} (f : T -> T) (l : List T)
    (p : ptr) (s : State T) :
  repr (heap s) p l ->
  (exists s', sum_h (S (length l)) p s = Some (sum l, s') /\
              visits s' = visits s + S (length l)) /\
  (exists us s', map_h (S (length l)) f p s = Some (us, s') /\
                 visits s' = visits s + S (length l) /\
                 calls s' = calls s + length l).
Proof.
  intros Hr. split.
  - destruct (@sum_h_spec T _ l (S (length l)) p s (Nat.lt_succ_diag_r _) Hr)
      as (s' & E & _ & Hv & _).
    exists s'. split; assumption.
  - destruct (@map_h_spec T f l (S (length l)) p s (Nat.lt_succ_diag_r _) Hr)
      as (us & s' & E & _ & _ & Hv & Hc).
    exists us, s'. repeat split; assumption.
Qed.

(** [filter] returns as well, but not after one dispatch per node: with a
    predicate that keeps everything, a list of [n] elements costs
    [2^(n+1) - 1] dispatches and [2^n - 1] applications of the predicate. *)
Lemma filter_h_all_true {T} (pred : T -> bool) (l : List T)
    (fuel : nat) (p : ptr) (s : State T) :
  (forall x, pred x = true) ->
  length l + 1 < fuel -> repr (heap s) p l ->
  exists q s',
    filter_h fuel pred p s = Some (q, s') /\
    repr (heap s') q l /\
    visits s' + 1 = visits s + 2 ^ S (length l) /\
    calls s' + 1 = calls s + 2 ^ length l.
Proof.
  intros Hp Hf Hr.
  destruct (@filter_h_spec T pred fuel l p s Hf Hr)
    as (q & s' & E & _ & Hq & Hv & Hc).
  destruct (@filter_cost_all_true T pred Hp fuel l Hf) as [Hv' Hc'].
  rewrite (@filter_spec_all T pred l Hp) in Hq.
  exists q, s'. repeat split; [exact E | exact Hq | lia | lia].
Qed.

(** C10, at the inputs where the source departs from it.  On [main]'s own
    call, [filter] with the evenness test on the three-element list [bs]
    (four nodes), the run dispatches on 9 nodes and applies the predicate 4
    times, where [map] on the same list dispatches on 4 and applies its
    function 3 times.  And for every list, built on an empty store and
    filtered with a predicate that keeps everything, the run returns after
    [2^(n+1) - 1] dispatches and [2^n - 1] applications of the predicate,
    [n] being the number of elements. *)
Theorem filter_cost_not_linear :
  option_map (fun r => (visits (snd r), calls (snd r))) main_filter_run
  = Some (9, 4) /\
  option_map (fun r => (visits (snd r), calls (snd r))) main_map_run
  = Some (4, 3) /\
  (forall T (l : List T),
     exists q s',
       (bs <- build l ;; filter_h (length l + 2) (fun _ => true) bs)
         empty_state = Some (q, s') /\
       visits s' + 1 = 2 ^ S (length l) /\
       calls s' + 1 = 2 ^ length l).
Proof.
  split; [reflexivity |]. split; [reflexivity |].
  intros T l.
  destruct (build_repr l (@empty_state T)) as (p & s1 & E1 & _ & Hr & Hlog).
  destruct (@filter_h_all_true T (fun _ => true) l (length l + 2) p s1)
    as (q & s' & E & _ & Hv & Hc); [reflexivity | lia | exact Hr |].
  exists q, s'. unfold bind. rewrite E1. split; [exact E |].
  unfold visits, calls in *. rewrite Hlog in *.
  cbn [log empty_state List.filter List.length Nat.add] in Hv, Hc.
  split; assumption.
Qed.

(* ------------------------------------------------------------------ *)
(** ** How map, filter and the fold compose *)

Section Composition.
Context {T : Type}.

Ltac map_step f h t :=
  change (map f (Cons h t)) with (Cons (f h) (map f t)) in *.

Ltac spec_step p h t :=
  change (filter_spec p (Cons h t))
    with (if p h then Cons h (filter_spec p t) else filter_spec p t) in *;
  cbv beta in *.

(** Mapping twice is mapping the composition once. *)
Theorem map_map (f g : T -> T) (l : List T) :
  map g (map f l) = map (fun x => g (f x)) l.
Proof.
  induction l as [h t IH|]; [| reflexivity].
  map_step f h t. map_step (fun x => g (f x)) h t.
  map_step g (f h) (map f t). rewrite IH. reflexivity.
Qed.

(** Folding with the constructors rebuilds the list, and so does mapping a
    function that returns its argument. *)
Theorem foldr_cons_nil (l : List T) :
  foldr (fun x acc => x &= acc) nil l = l /\
  forall f : T -> T, (forall x, In x (elements l) -> f x = x) -> map f l = l.
Proof.
  split.
  - induction l as [h t IH|]; [| reflexivity].
    change (foldr (fun x acc => x &= acc) nil (Cons h t))
      with (Cons h (foldr (fun x acc => x &= acc) nil t)).
    rewrite IH. reflexivity.
  - intros f. induction l as [h t IH|]; intros Hf; [| reflexivity].
    map_step f h t. rewrite Hf by (left; reflexivity).
    rewrite IH; [reflexivity |]. intros x Hx. apply Hf. right. exact Hx.
Qed.

Lemma filter_spec_and (p q : T -> bool) (l : List T) :
  filter_spec p (filter_spec q l) = filter_spec (fun x => q x && p x) l.
Proof.
  induction l as [h t IH|]; [| reflexivity].
  spec_step q h t. spec_step (fun x => q x && p x) h t.
  destruct (q h) eqn:Eq; cbn [andb].
  - spec_step p h (filter_spec q t). rewrite IH. reflexivity.
  - exact IH.
Qed.

Lemma filter_spec_ext (p q : T -> bool) (l : List T) :
  (forall x, In x (elements l) -> p x = q x) ->
  filter_spec p l = filter_spec q l.
Proof.
  induction l as [h t IH|]; intros H; [| reflexivity].
  spec_step p h t. spec_step q h t.
  rewrite (H h) by (left; reflexivity).
  rewrite IH; [reflexivity |]. intros x Hx. apply H. right. exact Hx.
Qed.

(** Filtering twice keeps what passes both tests, so the order of two
    filters does not matter and a second pass with the same test changes
    nothing. *)
Theorem filter_filter (p q : T -> bool) (l : List T) :
  filter p (filter q l) = filter (fun x => q x && p x) l /\
  filter p (filter q l) = filter q (filter p l) /\
  filter p (filter p l) = filter p l.
Proof.
  rewrite !filter_is_spec. split; [apply filter_spec_and |].
  split; [| apply filter_spec_idem].
  rewrite !filter_spec_and. apply filter_spec_ext.
  intros x _. apply andb_comm.
Qed.

(** Filtering a mapped list is mapping the list filtered by the test
    composed with the function. *)
Theorem filter_map (p : T -> bool) (f : T -> T) (l : List T) :
  filter p (map f l) = map f (filter (fun x => p (f x)) l).
Proof.
  rewrite !filter_is_spec.
  induction l as [h t IH|]; [| reflexivity].
  map_step f h t. spec_step p (f h) (map f t).
  spec_step (fun x => p (f x)) h t.
  destruct (p (f h)).
  - map_step f h (filter_spec (fun x => p (f x)) t). rewrite IH. reflexivity.
  - exact IH.
Qed.

(** A test that holds for every element of the list keeps the list; one
    that fails for every element leaves the empty list. *)
Theorem filter_all_none (p : T -> bool) (l : List T) :
  ((forall x, In x (elements l) -> p x = true) -> filter p l = l) /\
  ((forall x, In x (elements l) -> p x = false) -> filter p l = nil).
Proof.
  rewrite filter_is_spec. split; intros H.
  - rewrite (filter_spec_ext p (fun _ => true) l H).
    apply filter_spec_all. reflexivity.
  - rewrite (filter_spec_ext p (fun _ => false) l H).
    clear H. induction l as [h t IH|]; [exact IH | reflexivity].
Qed.

(** What a test keeps and what its negation keeps add up to the list. *)
Theorem filter_partition_length (p : T -> bool) (l : List T) :
  length (filter p l) + length (filter (fun x => negb (p x)) l) = length l.
Proof.
  rewrite !filter_is_spec.
  induction l as [h t IH|]; [| reflexivity].
  spec_step p h t. spec_step (fun x => negb (p x)) h t.
  destruct (p h); cbn [negb length]; lia.
Qed.

End Composition.

Lemma filter_all_none_witness :
  filter (fun x => (0 <? x)%Z) main_bs = main_bs /\
  filter (fun x => (x <? 0)%Z) main_bs = nil.
Proof.
  split.
  - apply (proj1 (filter_all_none (fun x => (0 <? x)%Z) main_bs)).
    intros x [<- | [<- | [<- | []]]]; reflexivity.
  - apply (proj2 (filter_all_none (fun x => (x <? 0)%Z) main_bs)).
    intros x [<- | [<- | [<- | []]]]; reflexivity.
Defined.

Lemma foldr_cons_nil_witness :
  map (fun x => Z.abs x) main_bs = main_bs.
Proof.
  apply (proj2 (foldr_cons_nil main_bs)).
  intros x [<- | [<- | [<- | []]]]; reflexivity.
Defined.

(* ------------------------------------------------------------------ *)
(** ** Sharing, depth and allocation on the store *)

Section StoreExtras.
Context {T : Type}.

(** Whatever the combining function, a fold given no more fuel than the list
    has elements runs out: the calls nest one deeper than the list is
    long. *)
Lemma foldr_h_out_of_fuel {R} (f : T -> R -> M T R) (acc : R) (l : List T) :
  forall fuel p s,
    repr (heap s) p l -> fuel <= length l -> foldr_h fuel f acc p s = None.
Proof.
  induction l as [h t IH|]; intros fuel p s Hr Hf;
    (destruct fuel as [|fuel]; [reflexivity |]); cbn [length] in Hf.
  - cbn [foldr_h]. rewrite cases_h_eq. destruct Hr as (q & Hp & Hq).
    rewrite Hp. unfold bind. rewrite IH; [reflexivity | exact Hq | lia].
  - inversion Hf.
Qed.

(** A fold whose combining function only computes leaves the store as it
    found it and applies no caller-supplied function. *)
Lemma foldr_h_pure_heap {R} (g : T -> R -> R) (acc : R) :
  forall fuel p s r s',
    foldr_h fuel (fun i a => ret (g i a)) acc p s = Some (r, s') ->
    heap s' = heap s.
Proof.
  induction fuel as [|fuel IH]; intros p s r s' H; [discriminate |].
  cbn [foldr_h] in H. rewrite cases_h_eq in H.
  destruct (nth_error (heap s) p) as [[h t|]|]; [| | discriminate].
  - unfold bind in H.
    destruct (foldr_h fuel _ acc t _) as [[r1 s1]|] eqn:E1; [| discriminate].
    apply IH in E1. unfold ret in H. injection H as _ <-. exact E1.
  - unfold ret in H. injection H as _ <-. reflexivity.
Qed.

(** [sum] on a list of [n] elements needs calls nested [n + 1] deep: it
    runs out of fuel exactly when given [n] or less. *)
Theorem sum_h_depth `{Additive T} (l : List T) (fuel : nat) (p : ptr)
    (s : State T) :
  repr (heap s) p l ->
  (sum_h fuel p s = None <-> fuel <= length l).
Proof.
  intros Hr. split.
  - intros E. destruct (Nat.le_gt_cases fuel (length l)) as [Hle | Hgt];
      [exact Hle |].
    destruct (@sum_h_spec T _ l fuel p s Hgt Hr) as (s' & E' & _).
    rewrite E' in E. discriminate.
  - intros Hle. apply (foldr_h_out_of_fuel _ _ l); assumption.
Qed.

(** [sum] returns the sum of the list and a store with the very nodes it
    started with: it allocates nothing. *)
Theorem sum_h_readonly `{Additive T} (l : List T) (fuel : nat) (p : ptr)
    (s : State T) :
  length l < fuel -> repr (heap s) p l ->
  exists s', sum_h fuel p s = Some (sum l, s') /\ heap s' = heap s.
Proof.
  intros Hf Hr.
  destruct (@sum_h_spec T _ l fuel p s Hf Hr) as (s' & E & _).
  exists s'. split; [exact E |].
  apply (foldr_h_pure_heap (fun i a => plus i a) zero fuel p s E).
Qed.

(** Two lists built on one tail share it: each construction adds one node
    whose tail field is the address of the tail, the tail still holds what
    it held, and no node that was there is touched. *)
Theorem cons_shares_tail (a b : T) (l : List T) (t : ptr) (s : State T) :
  repr (heap s) t l ->
  exists p1 p2 s',
    (p1 <- List_cons_h a t ;; p2 <- op_and_assign_h b t ;; ret (p1, p2)) s
    = Some ((p1, p2), s') /\
    nth_error (heap s') p1 = Some (NodeCons a t) /\
    nth_error (heap s') p2 = Some (NodeCons b t) /\
    p1 <> p2 /\
    repr (heap s') p1 (cons a l) /\
    repr (heap s') p2 (cons b l) /\
    repr (heap s') t l /\
    List.length (heap s') = List.length (heap s) + 2 /\
    (forall q n, nth_error (heap s) q = Some n ->
                 nth_error (heap s') q = Some n).
Proof.
  intros Hr.
  eexists _, _, _. split; [reflexivity |]. cbn [heap].
  assert (H1 : nth_error ((heap s ++ [NodeCons a t]) ++ [NodeCons b t])
                 (List.length (heap s)) = Some (NodeCons a t))
    by apply lookup_app, nth_error_fresh.
  assert (H2 : nth_error ((heap s ++ [NodeCons a t]) ++ [NodeCons b t])
                 (List.length (heap s ++ [NodeCons a t]))
               = Some (NodeCons b t))
    by apply nth_error_fresh.
  assert (Ht : repr ((heap s ++ [NodeCons a t]) ++ [NodeCons b t]) t l)
    by apply repr_app, repr_app, Hr.
  split; [exact H1 |]. split; [exact H2 |].
  split; [rewrite length_app; cbn; lia |].
  split; [exists t; split; assumption |].
  split; [exists t; split; assumption |].
  split; [exact Ht |].
  split; [rewrite !length_app; cbn; lia |].
  intros q n Hq. apply lookup_app, lookup_app, Hq.
Qed.

(** The fold inside [map], started once the seed's [Nil] node is in the
    store, adds the nodes in the order of the nested constructor calls: the
    node of the last element first, that of the first element last. *)
Lemma map_fold_builds (f : T -> T) (s : State T) (l : List T) :
  forall fuel p sa,
    heap sa = heap s ++ [NodeNil] -> repr (heap sa) p l -> length l < fuel ->
    exists r s1 s2,
      foldr_h fuel (fun x us => emit (Call x) ;;; op_and_assign_h (f x) us)
        (List.length (heap s)) p sa = Some (r, s1) /\
      build (map f l) s = Some (r, s2) /\
      heap s1 = heap s2.
Proof.
  induction l as [h t IH|]; intros fuel p sa Hsa Hr Hf;
    (destruct fuel as [|fuel]; [inversion Hf |]); cbn [length] in Hf;
    cbn [foldr_h]; rewrite cases_h_eq.
  - destruct Hr as (q & Hp & Hq). rewrite Hp.
    destruct (IH fuel q (mkState (heap sa) (Visit p :: log sa)))
      as (r & s1 & s2 & E1 & E2 & Hh); [exact Hsa | exact Hq | lia |].
    change (map f (Cons h t)) with (Cons (f h) (map f t)).
    cbn [build]. unfold bind in *. rewrite E1, E2.
    unfold emit, op_and_assign_h, List_cons_h, alloc. cbn [heap log].
    rewrite Hh.
    eexists _, _, _. split; [reflexivity |]. split; reflexivity.
  - cbn [repr] in Hr. rewrite Hr.
    eexists _, _, _. split; [reflexivity |]. split; [reflexivity |].
    cbn [heap]. exact Hsa.
Qed.

(** [map] leaves the store as building its result with nested constructor
    calls would: it returns the same address and adds the same nodes, one
    per node of its argument, none of them shared with it. *)
Theorem map_h_builds (f : T -> T) (l : List T) (fuel : nat) (ts : ptr)
    (s : State T) :
  length l < fuel -> repr (heap s) ts l ->
  exists us s1 s2,
    map_h fuel f ts s = Some (us, s1) /\
    build (map f l) s = Some (us, s2) /\
    heap s1 = heap s2 /\
    List.length (heap s1) = List.length (heap s) + S (length l).
Proof.
  intros Hf Hr.
  destruct (@map_fold_builds f s l fuel ts
              (mkState (heap s ++ [NodeNil]) (log s)))
    as (r & s1 & s2 & E1 & E2 & Hh);
    [reflexivity | apply repr_app, Hr | exact Hf |].
  exists r, s1, s2. split; [exact E1 |]. split; [exact E2 |].
  split; [exact Hh |].
  rewrite Hh. clear - E2.
  revert r s2 E2. generalize (map_length f l). generalize (map f l).
  intros m Hm. rewrite <- Hm. clear Hm.
  induction m as [x m IH|]; intros r s2 E2; cbn [build] in E2.
  - unfold bind in E2. destruct (build m s) as [[q sq]|] eqn:Eq; [| discriminate].
    specialize (IH q sq eq_refl). injection E2 as _ <-.
    cbn [heap length]. rewrite length_app, IH. cbn. lia.
  - injection E2 as _ <-. cbn [heap length]. rewrite length_app. cbn. lia.
Qed.

End StoreExtras.

(* ------------------------------------------------------------------ *)
(** ** What filter allocates *)

(** The fold on the store again, for a property of the result alone. *)
Section FoldrPost.
Context {T R : Type}.
Variable f : T -> R -> M T R.
Variable acc : R.
Variable Base : State T -> Prop.
Variable Post : State T -> List T -> R -> Prop.
Variable bound : nat.

Hypothesis Base_grows : forall s s', Base s -> grows s s' -> Base s'.
Hypothesis Post_nil : forall s, Base s -> Post s Nil acc.
Hypothesis f_post :
  forall h t r s,
    length t < bound -> Base s -> Post s t r ->
    exists r' s', f h r s = Some (r', s') /\ grows s s' /\ Post s' (Cons h t) r'.

Lemma foldr_h_post (l : List T) :
  forall fuel p s,
    length l <= bound -> length l < fuel ->
    Base s -> repr (heap s) p l ->
    exists r s',
      foldr_h fuel f acc p s = Some (r, s') /\ grows s s' /\ Post s' l r.
Proof.
  induction l as [h t IH|]; intros fuel p s Hb Hf HB Hr;
    (destruct fuel as [|fuel]; [inversion Hf |]);
    cbn [foldr_h]; rewrite cases_h_eq; cbn [repr length] in *.
  - destruct Hr as (q & Hp & Hq). rewrite Hp.
    assert (HB1 : Base (mkState (heap s) (Visit p :: log s)))
      by (eapply Base_grows; [exact HB | apply grows_emit]).
    destruct (IH fuel q (mkState (heap s) (Visit p :: log s)))
      as (r & s2 & E & G & HP); [lia | lia | exact HB1 | exact Hq |].
    assert (HB2 : Base s2) by (eapply Base_grows; eassumption).
    destruct (@f_post h t r s2) as (r' & s3 & E' & G' & HP');
      [lia | exact HB2 | exact HP |].
    exists r', s3. unfold bind. rewrite E. split; [exact E' |].
    split; [| exact HP'].
    eapply grows_trans; [apply grows_emit |].
    eapply grows_trans; eassumption.
  - rewrite Hr. exists acc. eexists. split; [reflexivity |].
    split; [apply grows_emit |].
    apply Post_nil. eapply Base_grows; [exact HB | apply grows_emit].
Qed.

End FoldrPost.

Section Fresh.
Context {T : Type}.

Lemma repr_above_repr (k : nat) (h : list (Node T)) (l : List T) :
  forall p, repr_above k h p l -> repr h p l.
Proof.
  induction l as [x t IH|]; cbn [repr_above repr].
  - intros p (_ & q & Hp & Hq). exists q. split; [exact Hp | apply IH, Hq].
  - intros p (_ & Hp). exact Hp.
Qed.

Lemma repr_above_app (k : nat) (h new : list (Node T)) (l : List T) :
  forall p, repr_above k h p l -> repr_above k (h ++ new) p l.
Proof.
  induction l as [x t IH|]; cbn [repr_above].
  - intros p (Hk & q & Hp & Hq). split; [exact Hk |]. exists q.
    split; [apply lookup_app, Hp | apply IH, Hq].
  - intros p (Hk & Hp). split; [exact Hk | apply lookup_app, Hp].
Qed.

Lemma repr_above_grows (k : nat) (s s' : State T) (l : List T) (p : ptr) :
  grows s s' -> repr_above k (heap s) p l -> repr_above k (heap s') p l.
Proof. intros [new E] H. rewrite E. apply repr_above_app, H. Qed.

Lemma repr_above_le (k k' : nat) (h : list (Node T)) (l : List T) :
  k' <= k -> forall p, repr_above k h p l -> repr_above k' h p l.
Proof.
  intros Hk. induction l as [x t IH|]; cbn [repr_above].
  - intros p (Hp & q & Hn & Hq). split; [lia |]. exists q.
    split; [exact Hn | apply IH, Hq].
  - intros p (Hp & Hn). split; [lia | exact Hn].
Qed.

Lemma grows_length (s s' : State T) :
  grows s s' -> List.length (heap s) <= List.length (heap s').
Proof. intros [new E]. rewrite E, length_app. lia. Qed.

Variable pred : T -> bool.

Lemma filter_h_above (fuel : nat) :
  forall (l : List T) (p : ptr) (s : State T),
    length l + 1 < fuel -> repr (heap s) p l ->
    exists q s',
      filter_h fuel pred p s = Some (q, s') /\ grows s s' /\
      repr_above (List.length (heap s)) (heap s') q (filter_spec pred l).
Proof.
  induction fuel as [|fuel IHfuel]; intros l p s Hf Hr; [inversion Hf |].
  cbn [filter_h]. unfold bind at 1. unfold List_nil_h, alloc.
  set (k := List.length (heap s)).
  set (s1 := mkState (heap s ++ [NodeNil]) (log s)).
  destruct (@foldr_h_post T ptr
              (fun head tail =>
                 emit (Call head) ;;;
                 if pred head
                 then r <- filter_h fuel pred tail ;; op_and_assign_h head r
                 else filter_h fuel pred tail) k
              (fun s0 => nth_error (heap s0) k = Some NodeNil /\
                         k <= List.length (heap s0))
              (fun s0 t r => repr_above k (heap s0) r (filter_spec pred t))
              (fuel - 1))
    with (l := l) (fuel := fuel) (p := p) (s := s1)
    as (r & s' & E & G & HP); try lia.
  - intros s0 s0' [H0 H0'] G0. split; [eapply grows_lookup; eassumption |].
    pose proof (grows_length G0). lia.
  - intros s0 [H0 _]. split; [apply Nat.le_refl | exact H0].
  - intros h t r s0 Ht [_ Hk] HP.
    set (s2 := mkState (heap s0) (Call h :: log s0)).
    destruct (IHfuel (filter_spec pred t) r s2)
      as (q & s3 & E3 & G3 & H3);
      [pose proof (filter_spec_length pred t); lia
      | apply (repr_above_repr k), HP |].
    rewrite filter_spec_idem in H3.
    apply (repr_above_le (k' := k)) in H3; [| exact Hk].
    change (filter_spec pred (Cons h t))
      with (if pred h then Cons h (filter_spec pred t)
            else filter_spec pred t).
    unfold bind at 1. cbn [emit]. fold s2.
    destruct (pred h).
    + unfold bind. rewrite E3. unfold op_and_assign_h, List_cons_h, alloc.
      eexists _, _. split; [reflexivity |]. cbn [heap log].
      split.
      { eapply grows_trans; [apply grows_emit |].
        eapply grows_trans; [exact G3 | apply grows_alloc]. }
      split.
      { pose proof (grows_length G3). cbn [heap s2] in *. lia. }
      exists q. split; [apply nth_error_fresh | apply repr_above_app, H3].
    + exists q, s3. split; [exact E3 |].
      split; [eapply grows_trans; [apply grows_emit | exact G3] | exact H3].
  - split; [apply nth_error_fresh |]. cbn [heap s1]. rewrite length_app. lia.
  - apply repr_app, Hr.
  - exists r, s'. split; [exact E |].
    split; [eapply grows_trans; [apply grows_alloc | exact G] | exact HP].
Qed.

(** [filter] hands back a list made of new nodes only, also when the test
    keeps every element: nothing of the argument is reused.  The argument
    still holds what it held and no node that was in the store is
    touched. *)
Theorem filter_h_fresh (l : List T) (fuel : nat) (p : ptr) (s : State T) :
  length l + 1 < fuel -> repr (heap s) p l ->
  exists q s',
    filter_h fuel pred p s = Some (q, s') /\
    repr_above (List.length (heap s)) (heap s') q (filter pred l) /\
    repr (heap s') p l /\
    (forall a n, nth_error (heap s) a = Some n ->
                 nth_error (heap s') a = Some n).
Proof.
  intros Hf Hr.
  destruct (@filter_h_above fuel l p s Hf Hr) as (q & s' & E & G & Hq).
  exists q, s'. rewrite filter_is_spec.
  split; [exact E |]. split; [exact Hq |].
  split; [eapply grows_repr; eassumption |].
  intros a n Ha. eapply grows_lookup; eassumption.
Qed.

End Fresh.

(* ------------------------------------------------------------------ *)
(** ** What filter costs, for every test *)

Section FilterCost.
Context {T : Type}.
Variable pred : T -> bool.

Lemma filter_cost_bounds (fuel : nat) :
  forall l : List T,
    length l + 1 < fuel ->
    2 * length l + 1 <= filter_visits fuel pred l /\
    filter_visits fuel pred l + 1 <= 2 ^ S (length l) /\
    length l <= filter_calls fuel pred l /\
    filter_calls fuel pred l + 1 <= 2 ^ length l.
Proof.
  induction fuel as [|fuel IHfuel]; intros l Hf; [inversion Hf |].
  cbn [filter_visits filter_calls].
  assert (Hl : length l + 1 <= fuel) by lia. clear Hf.
  assert (length l
            <= total (fun _ t => filter_visits fuel pred (filter_spec pred t)) l
          /\ total (fun _ t => filter_visits fuel pred (filter_spec pred t)) l
               + length l + 2 <= 2 ^ S (length l)
          /\ length l
               <= total (fun _ t => S (filter_calls fuel pred (filter_spec pred t))) l
          /\ total (fun _ t => S (filter_calls fuel pred (filter_spec pred t))) l
               + 1 <= 2 ^ length l) as (H1 & H2 & H3 & H4); [| lia].
  induction l as [h t IH|]; [| cbn; lia].
  cbn [length total] in *.
  destruct IH as (I1 & I2 & I3 & I4); [lia |].
  pose proof (filter_spec_length pred t) as Hlen.
  destruct (IHfuel (filter_spec pred t)) as (F1 & F2 & F3 & F4); [lia |].
  pose proof (Nat.pow_le_mono_r 2 _ _ ltac:(lia) Hlen) as P1.
  pose proof (Nat.pow_le_mono_r 2 (S (length (filter_spec pred t)))
                (S (length t)) ltac:(lia) ltac:(lia)) as P2.
  rewrite (Nat.pow_succ_r' 2 (S (length t))), (Nat.pow_succ_r' 2 (length t)) in *.
  lia.
Qed.

(** For every test, [filter] on [n] elements dispatches on at least
    [2n + 1] and at most [2^(n+1) - 1] nodes and applies the test at least
    [n] and at most [2^n - 1] times. *)
Theorem filter_h_cost_bounds (l : List T) (fuel : nat) (p : ptr)
    (s : State T) :
  length l + 1 < fuel -> repr (heap s) p l ->
  exists q s',
    filter_h fuel pred p s = Some (q, s') /\
    visits s + (2 * length l + 1) <= visits s' /\
    visits s' + 1 <= visits s + 2 ^ S (length l) /\
    calls s + length l <= calls s' /\
    calls s' + 1 <= calls s + 2 ^ length l.
Proof.
  intros Hf Hr.
  destruct (@filter_h_spec T pred fuel l p s Hf Hr)
    as (q & s' & E & _ & _ & Hv & Hc).
  destruct (filter_cost_bounds l Hf) as (B1 & B2 & B3 & B4).
  exists q, s'. split; [exact E |]. lia.
Qed.

Lemma filter_spec_none (l : List T) :
  (forall x, In x (elements l) -> pred x = false) -> filter_spec pred l = Nil.
Proof.
  induction l as [h t IH|]; intros H; [| reflexivity].
  change (filter_spec pred (Cons h t))
    with (if pred h then Cons h (filter_spec pred t) else filter_spec pred t).
  rewrite (H h) by (left; reflexivity).
  apply IH. intros x Hx. apply H. right. exact Hx.
Qed.

Lemma filter_cost_none (fuel : nat) (l : List T) :
  (forall x, In x (elements l) -> pred x = false) ->
  length l + 1 < fuel ->
  filter_visits fuel pred l = 2 * length l + 1 /\
  filter_calls fuel pred l = length l.
Proof.
  intros H Hf. destruct fuel as [|fuel]; [inversion Hf |].
  cbn [filter_visits filter_calls].
  assert (Hk : 1 <= fuel) by lia. clear Hf.
  assert (total (fun _ t => filter_visits fuel pred (filter_spec pred t)) l
          = length l /\
          total (fun _ t => S (filter_calls fuel pred (filter_spec pred t))) l
          = length l) as [H1 H2]; [| lia].
  induction l as [h t IH|]; [| split; reflexivity].
  cbn [length total].
  destruct IH as [I1 I2]; [intros x Hx; apply H; right; exact Hx |].
  rewrite I1, I2, filter_spec_none
    by (intros x Hx; apply H; right; exact Hx).
  destruct fuel as [|fuel]; [inversion Hk |]. split; reflexivity.
Qed.

(** The lower bounds are met when the test rejects every element: the run
    then returns the empty list after [2n + 1] dispatches and [n]
    applications of the test. *)
Theorem filter_h_none_cost (l : List T) (fuel : nat) (p : ptr) (s : State T) :
  (forall x, In x (elements l) -> pred x = false) ->
  length l + 1 < fuel -> repr (heap s) p l ->
  exists q s',
    filter_h fuel pred p s = Some (q, s') /\
    repr (heap s') q nil /\
    visits s' = visits s + (2 * length l + 1) /\
    calls s' = calls s + length l.
Proof.
  intros H Hf Hr.
  destruct (@filter_h_spec T pred fuel l p s Hf Hr)
    as (q & s' & E & _ & Hq & Hv & Hc).
  destruct (filter_cost_none l H Hf) as [C1 C2].
  rewrite (filter_spec_none l H) in Hq.
  exists q, s'. split; [exact E |]. split; [exact Hq |]. lia.
Qed.

End FilterCost.

(* ------------------------------------------------------------------ *)
(** ** sum on int *)

Lemma int_wrap_in_range (z : Z) : int_range z -> int_wrap z = z.
Proof.
  unfold int_range, int_wrap. intros H.
  rewrite Z.mod_small by lia. lia.
Qed.

(** When none of its additions overflows, [sum] returns the sum of the
    elements as integers, and that value is an [int]. *)
Theorem sum_exact (l : List int) :
  no_overflow l -> sum l = Zsum l /\ int_range (sum l).
Proof.
  induction l as [h t IH|]; cbn [no_overflow].
  - intros [Ht Hh]. destruct (IH Ht) as [E _].
    change (sum (Cons h t)) with (int_wrap (h + sum t)).
    change (Zsum (Cons h t)) with (h + Zsum t)%Z.
    rewrite E, int_wrap_in_range by exact Hh. split; [reflexivity | exact Hh].
  - intros _. split; [reflexivity | unfold int_range; cbn; lia].
Qed.

Lemma sum_exact_witness :
  sum main_bs = 6%Z /\ int_range (sum main_bs).
Proof.
  apply (sum_exact main_bs).
  cbn. unfold int_range. repeat split; lia.
Defined.

(* ------------------------------------------------------------------ *)
(** ** How deep filter nests *)

Section FilterDepth.
Context {T : Type}.
Variable pred : T -> bool.

(** On a list the test keeps whole, the depth is one more than the
    length. *)
Lemma filter_depth_fixed (l : List T) :
  filter_depth pred (filter_spec pred l) = S (length (filter_spec pred l)).
Proof.
  induction l as [h t IH|]; [| reflexivity].
  change (filter_spec pred (Cons h t))
    with (if pred h then Cons h (filter_spec pred t) else filter_spec pred t).
  destruct (pred h); [| exact IH].
  cbn [filter_depth length]. rewrite filter_spec_idem. reflexivity.
Qed.

Lemma filter_depth_tail (h : T) (t : List T) :
  filter_depth pred t <= filter_depth pred (Cons h t).
Proof.
  destruct t as [x u|]; cbn [filter_depth]; [| lia].
  change (filter_spec pred (Cons x u))
    with (if pred x then Cons x (filter_spec pred u) else filter_spec pred u).
  destruct (pred x); cbn [length]; lia.
Qed.

(** [filter] returns exactly when its fuel reaches [filter_depth]. *)
Lemma filter_fuel_depth (fuel : nat) :
  forall l : List T,
    (fuel < filter_depth pred l -> filter_fuel fuel pred l = None) /\
    (filter_depth pred l <= fuel ->
     filter_fuel fuel pred l = Some (filter_spec pred l)).
Proof.
  induction fuel as [|fuel IHfuel]; intros l.
  { split; [reflexivity |]. destruct l; cbn [filter_depth]; lia. }
  induction l as [h t IHt|].
  - destruct IHt as [Ht1 Ht2].
    pose proof (filter_depth_tail h t) as Hmono.
    change (filter_fuel (S fuel) pred (Cons h t))
      with (match filter_fuel (S fuel) pred t with
            | None => None
            | Some tail =>
                if pred h
                then option_map (fun r => h &= r) (filter_fuel fuel pred tail)
                else filter_fuel fuel pred tail
            end).
    destruct (IHfuel (filter_spec pred t)) as [Hf1 Hf2].
    rewrite filter_depth_fixed in Hf1, Hf2. rewrite filter_spec_idem in Hf2.
    change (filter_spec pred (Cons h t))
      with (if pred h then Cons h (filter_spec pred t) else filter_spec pred t).
    cbn [filter_depth] in *.
    split; intros Hd.
    + destruct (Nat.le_gt_cases (filter_depth pred t) (S fuel)) as [Hle | Hgt].
      * rewrite (Ht2 Hle), Hf1 by lia. destruct (pred h); reflexivity.
      * rewrite (Ht1 Hgt). reflexivity.
    + rewrite Ht2, Hf2 by lia. destruct (pred h); reflexivity.
  - split; [cbn [filter_depth]; lia | reflexivity].
Qed.

(** The calls of [filter] nest [filter_depth] deep: one for the empty list,
    otherwise two more than the number of elements the test keeps in the
    tail.  With that much fuel the run returns the filtered list, with less
    it runs out. *)
Theorem filter_fuel_exact (fuel : nat) (l : List T) :
  (filter_fuel fuel pred l = None <-> fuel < filter_depth pred l) /\
  (filter_fuel fuel pred l = Some (filter pred l)
   <-> filter_depth pred l <= fuel) /\
  filter_depth pred l <= S (length l).
Proof.
  destruct (filter_fuel_depth fuel l) as [H1 H2]. rewrite filter_is_spec.
  split; [| split].
  - split; [| exact H1]. intros E.
    destruct (Nat.le_gt_cases (filter_depth pred l) fuel) as [Hle | Hgt];
      [rewrite (H2 Hle) in E; discriminate | exact Hgt].
  - split; [| exact H2]. intros E.
    destruct (Nat.le_gt_cases (filter_depth pred l) fuel) as [Hle | Hgt];
      [exact Hle | rewrite (H1 Hgt) in E; discriminate].
  - destruct l as [h t|]; cbn [filter_depth length]; [| lia].
    pose proof (filter_spec_length pred t). lia.
Qed.

End FilterDepth.

(* ------------------------------------------------------------------ *)
(** ** The printed form determines the list *)

Lemma no_blank_split (a : string) :
  forall (b x y : string),
    no_blank a -> no_blank b ->
    (a ++ " &= " ++ x = b ++ " &= " ++ y)%string -> a = b /\ x = y.
Proof.
  induction a as [|c a IH]; intros [|d b] x y Ha Hb E; cbn in *.
  - injection E as E. split; [reflexivity | exact E].
  - injection E as E _. destruct Hb as [Hd _]. congruence.
  - injection E as E _. destruct Ha as [Hc _]. congruence.
  - injection E as E1 E2. destruct Ha as [_ Ha], Hb as [_ Hb].
    destruct (IH b x y Ha Hb E2) as [-> ->]. subst d. split; reflexivity.
Qed.

Lemma render_length {T} `{Printable T} (l : List T) :
  3 <= String.length (render l).
Proof.
  destruct l as [h t|]; [| cbn; lia].
  rewrite render_Cons.
  assert (L : forall a b, String.length (a ++ b) = String.length a + String.length b).
  { intros a b. induction a as [|c a IH]; cbn; [| rewrite IH]; reflexivity. }
  rewrite !L. cbn. lia.
Qed.

(** For an element type whose printed form has no blank and determines the
    element, lists that print alike are equal. *)
Lemma render_inj {T} `{Printable T} :
  (forall x : T, no_blank (show x)) ->
  (forall x y : T, show x = show y -> x = y) ->
  forall l1 l2 : List T, render l1 = render l2 -> l1 = l2.
Proof.
  intros Hnb Hinj.
  assert (L : forall a b, String.length (a ++ b) = String.length a + String.length b).
  { intros a b. induction a as [|c a IH]; cbn; [| rewrite IH]; reflexivity. }
  assert (Hne : forall h (t : List T), render (Cons h t) <> "nil"%string).
  { intros h t E. apply (f_equal String.length) in E.
    rewrite render_Cons, !L in E. pose proof (render_length t). cbn in E. lia. }
  induction l1 as [h1 t1 IH|]; intros [h2 t2|] E.
  - rewrite !render_Cons in E.
    destruct (no_blank_split _ _ _ _ (Hnb h1) (Hnb h2) E) as [Eh Et].
    rewrite (Hinj _ _ Eh), (IH _ Et). reflexivity.
  - exfalso. apply (Hne h1 t1). exact E.
  - exfalso. apply (Hne h2 t2). symmetry. exact E.
  - reflexivity.
Qed.

Lemma uint_no_blank (d : Decimal.uint) :
  no_blank (NilEmpty.string_of_uint d).
Proof.
  induction d; cbn; try exact I; (split; [discriminate | assumption]).
Qed.

Lemma show_int_no_blank (z : int) : no_blank (show z).
Proof.
  assert (U : forall d, no_blank (NilZero.string_of_uint d)).
  { intros d. destruct d; try apply uint_no_blank.
    cbn. split; [discriminate | exact I]. }
  cbn [show int_Printable]. destruct (Z.to_int z) as [d|d]; cbn.
  - apply U.
  - split; [discriminate | apply U].
Qed.

Lemma show_int_inj (x y : int) : show x = show y -> x = y.
Proof.
  cbn [show int_Printable]. intros E.
  apply DecimalZ.to_int_inj.
  assert (P : forall z, NilZero.int_of_string
                          (NilZero.string_of_int (Z.to_int z))
                        = Some (Z.to_int z)).
  { intros z. apply NilZero.isi; destruct z as [|p|p]; cbn; try discriminate;
      intros [= Hp]; exact (DecimalPos.Unsigned.to_uint_nonnil p Hp). }
  pose proof (P x) as Px. rewrite E, P in Px. congruence.
Qed.

(** Two lists of [int] that print alike are equal: the text [operator<<]
    writes determines the list. *)
Theorem render_int_inj (l1 l2 : List int) :
  render l1 = render l2 -> l1 = l2.
Proof. apply render_inj; [apply show_int_no_blank | apply show_int_inj]. Qed.

Lemma render_int_inj_witness : main_as = main_bs.
Proof. apply (render_int_inj main_as main_bs). reflexivity. Defined.

(* ------------------------------------------------------------------ *)
(** ** The driver *)

(** What [main] writes: four lines, the list printed and its sum. *)
Example main_output :
  main = ("sum(1 &= 2 &= 3 &= nil) = 6" ++ endl ++
          "sum(1 &= 2 &= 3 &= nil) = 6" ++ endl ++
          "sum(2 &= 4 &= 6 &= nil) = 12" ++ endl ++
          "sum(2 &= nil) = 2" ++ endl)%string.
Proof. reflexivity. Qed.

(* ------------------------------------------------------------------ *)
(** ** The store properties on [main]'s list *)

Lemma main_store_repr : repr (heap main_store) 3 main_bs.
Proof.
  exists 2. split; [reflexivity |]. exists 1. split; [reflexivity |].
  exists 0. split; reflexivity.
Qed.

Lemma main_bs_length : length main_bs = 3.
Proof. reflexivity. Qed.

Lemma sum_h_depth_witness : sum_h 3 3 main_store = None.
Proof.
  apply (proj2 (@sum_h_depth int _ main_bs 3 3 main_store main_store_repr)).
  rewrite main_bs_length. apply Nat.le_refl.
Defined.

Lemma sum_h_readonly_witness :
  exists s', sum_h 4 3 main_store = Some (sum main_bs, s') /\
             heap s' = heap main_store.
Proof.
  apply (@sum_h_readonly int _ main_bs 4 3 main_store);
    [rewrite main_bs_length; lia | exact main_store_repr].
Defined.

Lemma cons_shares_tail_witness :
  exists p1 p2 s',
    (p1 <- List_cons_h 0%Z 3 ;; p2 <- op_and_assign_h 9%Z 3 ;; ret (p1, p2))
      main_store = Some ((p1, p2), s') /\
    nth_error (heap s') p1 = Some (NodeCons 0%Z 3) /\
    nth_error (heap s') p2 = Some (NodeCons 9%Z 3) /\
    p1 <> p2.
Proof.
  destruct (@cons_shares_tail int 0%Z 9%Z main_bs 3 main_store main_store_repr)
    as (p1 & p2 & s' & E & H1 & H2 & Hne & _).
  exists p1, p2, s'. repeat split; assumption.
Defined.

Lemma map_h_builds_witness :
  exists us s1 s2,
    map_h 4 main_double 3 main_store = Some (us, s1) /\
    build (map main_double main_bs) main_store = Some (us, s2) /\
    heap s1 = heap s2.
Proof.
  destruct (@map_h_builds int main_double main_bs 4 3 main_store)
    as (us & s1 & s2 & E1 & E2 & Hh & _);
    [rewrite main_bs_length; lia | exact main_store_repr |].
  exists us, s1, s2. repeat split; assumption.
Defined.

Lemma filter_h_fresh_witness :
  exists q s',
    filter_h 5 main_even 3 main_store = Some (q, s') /\
    repr_above 4 (heap s') q (filter main_even main_bs) /\
    repr (heap s') 3 main_bs.
Proof.
  destruct (@filter_h_fresh int main_even main_bs 5 3 main_store)
    as (q & s' & E & Hq & Hp & _);
    [rewrite main_bs_length; lia | exact main_store_repr |].
  exists q, s'. split; [exact E |]. split; [exact Hq | exact Hp].
Defined.

Lemma filter_h_cost_bounds_witness :
  exists q s',
    filter_h 5 main_even 3 main_store = Some (q, s') /\
    7 <= visits s' /\ visits s' + 1 <= 16.
Proof.
  destruct (@filter_h_cost_bounds int main_even main_bs 5 3 main_store)
    as (q & s' & E & V1 & V2 & _);
    [rewrite main_bs_length; lia | exact main_store_repr |].
  exists q, s'. rewrite main_bs_length in V1, V2.
  split; [exact E |]. split; [exact V1 | exact V2].
Defined.

Lemma filter_h_none_cost_witness :
  exists q s',
    filter_h 5 (fun x => (x <? 0)%Z) 3 main_store = Some (q, s') /\
    repr (heap s') q nil /\
    visits s' = 7 /\ calls s' = 3.
Proof.
  destruct (@filter_h_none_cost int (fun x => (x <? 0)%Z) main_bs 5 3 main_store)
    as (q & s' & E & Hq & Hv & Hc);
    [intros x [<- | [<- | [<- | []]]]; reflexivity
    | rewrite main_bs_length; lia | exact main_store_repr |].
  exists q, s'. rewrite main_bs_length in Hv, Hc.
  split; [exact E |]. split; [exact Hq |]. split; [exact Hv | exact Hc].
Defined.

Lemma filter_fuel_exact_witness :
  filter_fuel 2 main_even main_bs = None /\
  filter_fuel 3 main_even main_bs = Some (filter main_even main_bs).
Proof.
  split.
  - apply (proj2 (proj1 (filter_fuel_exact main_even 2 main_bs))).
    cbn. lia.
  - apply (proj2 (proj1 (proj2 (filter_fuel_exact main_even 3 main_bs)))).
    cbn. lia.
Defined.

(* ------------------------------------------------------------------ *)
(** ** Folding what map and filter return *)

(** A fold over a mapped list is one fold whose combining function applies
    the mapped function first; a fold over a filtered list is one fold
    whose combining function skips the elements the test rejects.  So the
    sum of a mapped or filtered list needs no intermediate list. *)
Theorem foldr_fusion {T R} (g : T -> R -> R) (seed : R) (l : List T) :
  (forall f : T -> T,
     foldr g seed (map f l) = foldr (fun x acc => g (f x) acc) seed l) /\
  (forall p : T -> bool,
     foldr g seed (filter p l)
     = foldr (fun x acc => if p x then g x acc else acc) seed l).
Proof.
  split.
  - intros f. induction l as [h t IH|]; [| reflexivity].
    change (map f (Cons h t)) with (Cons (f h) (map f t)).
    change (foldr g seed (Cons (f h) (map f t)))
      with (g (f h) (foldr g seed (map f t))).
    rewrite IH. reflexivity.
  - intros p. rewrite filter_is_spec.
    induction l as [h t IH|]; [| reflexivity].
    change (filter_spec p (Cons h t))
      with (if p h then Cons h (filter_spec p t) else filter_spec p t).
    change (foldr (fun x acc => if p x then g x acc else acc) seed (Cons h t))
      with (if p h
            then g h (foldr (fun x acc => if p x then g x acc else acc) seed t)
            else foldr (fun x acc => if p x then g x acc else acc) seed t).
    rewrite <- IH. destruct (p h); reflexivity.
Qed.

(* ------------------------------------------------------------------ *)
(** ** filter against the single fold of the specification *)

(** The specification's single fold returns the filtered list after one
    dispatch per node and one application of the test per element. *)
Lemma filter_spec_h_spec {T} (pred : T -> bool) (l : List T) (fuel : nat)
    (p : ptr) (s : State T) :
  length l < fuel -> repr (heap s) p l ->
  exists q s',
    filter_spec_h fuel pred p s = Some (q, s') /\ grows s s' /\
    repr (heap s') q (filter_spec pred l) /\
    visits s' = visits s + S (length l) /\ calls s' = calls s + length l.
Proof.
  intros Hf Hr. unfold filter_spec_h, bind at 1, List_nil_h, alloc.
  set (n := List.length (heap s)).
  set (s1 := mkState (heap s ++ [NodeNil]) (log s)).
  destruct (@foldr_h_spec T ptr
              (fun x acc =>
                 emit (Call x) ;;;
                 if pred x then List_cons_h x acc else ret acc) n
              (fun s0 => nth_error (heap s0) n = Some NodeNil)
              (fun s0 t r => repr (heap s0) r (filter_spec pred t))
              (fun _ _ => 0) (fun _ _ => 1) (length l))
    with (l := l) (fuel := fuel) (p := p) (s := s1)
    as (r & s' & E & G & HP & Hv & Hc); trivial.
  - intros s0 s0' H0 G0. eapply grows_lookup; eassumption.
  - intros h t r s0 _ _ HP.
    change (filter_spec pred (Cons h t))
      with (if pred h then Cons h (filter_spec pred t)
            else filter_spec pred t).
    unfold bind, emit, List_cons_h, alloc, ret. cbn [heap log].
    destruct (pred h); eexists _, _; (split; [reflexivity |]); cbn [heap log].
    + split; [exists [NodeCons h r]; reflexivity |].
      split; [| unfold visits, calls; cbn; split; lia].
      exists r. split; [apply nth_error_fresh | apply repr_app, HP].
    + split; [exists []; symmetry; apply app_nil_r |].
      split; [exact HP | unfold visits, calls; cbn; split; lia].
  - apply nth_error_fresh.
  - apply repr_app, Hr.
  - exists r, s'. rewrite total_zero, total_one in *.
    split; [exact E |].
    split; [eapply grows_trans; [apply grows_alloc | exact G] |].
    split; [exact HP |]. rewrite Hv, Hc. unfold visits, calls. cbn [log s1].
    split; lia.
Qed.

(** C2, at the inputs where the source departs from it.  The source's
    [filter] is not the single fold of the specification: its lambda calls
    [filter] again.  On [main]'s call, [filter] with the evenness test on
    1, 2, 3, fuel for one call of [filter] does not let the run return; the
    run dispatches on 9 nodes and applies the test 4 times where the single
    fold dispatches on 4 and applies it 3 times.  On every non-empty list
    and for every test, both runs return and the source's run dispatches on
    more nodes than the single fold, which dispatches once per node and
    applies the test once per element.  Only the returned value is the one
    of the single fold, for every test and list. *)
Theorem filter_not_single_fold :
  filter_fuel 1 main_even main_bs = None /\
  option_map (fun r => (visits (snd r), calls (snd r))) main_filter_run
  = Some (9, 4) /\
  option_map (fun r => (visits (snd r), calls (snd r))) main_filter_spec_run
  = Some (4, 3) /\
  (forall T (pred : T -> bool) (h : T) (t : List T),
     exists q s' q0 s0,
       (bs <- build (Cons h t) ;; filter_h (length t + 3) pred bs) empty_state
       = Some (q, s') /\
       (bs <- build (Cons h t) ;; filter_spec_h (length t + 2) pred bs)
         empty_state = Some (q0, s0) /\
       visits s0 = length t + 2 /\ calls s0 = length t + 1 /\
       visits s0 < visits s') /\
  (forall T (pred : T -> bool) (l : List T),
     filter pred l = filter_spec pred l).
Proof.
  split; [reflexivity |]. split; [reflexivity |]. split; [reflexivity |].
  split; [| intros T pred l; apply filter_is_spec].
  intros T pred h t.
  destruct (build_repr (Cons h t) (@empty_state T))
    as (p & s1 & E1 & _ & Hr & Hlog).
  destruct (@filter_h_spec T pred (length t + 3) (Cons h t) p s1)
    as (q & s' & E & _ & _ & Hv & _); [cbn [length]; lia | exact Hr |].
  destruct (@filter_spec_h_spec T pred (Cons h t) (length t + 2) p s1)
    as (q0 & s0 & E0 & _ & _ & Hv0 & Hc0); [cbn [length]; lia | exact Hr |].
  destruct (@filter_cost_bounds T pred (length t + 3) (Cons h t))
    as (B & _); [cbn [length]; lia |].
  exists q, s', q0, s0. unfold bind. rewrite E1.
  split; [exact E |]. split; [exact E0 |].
  assert (Z1 : visits s1 = 0) by (unfold visits; rewrite Hlog; reflexivity).
  assert (Z2 : calls s1 = 0) by (unfold calls; rewrite Hlog; reflexivity).
  cbn [length] in *. lia.
Qed.
